(** * autheos_message: the reveal animation of an overlay message

    A shallow embedding of [autheos_message.py]: the tokenizer, the
    per-window reveal controller driven by GLib timers, and the
    activation path of the application that decides the window set.

    Python [str] values that carry the message are sequences of Unicode
    code points; the option strings that argparse restricts to a few
    choices ([--mode], [--reveal-position]) are plain strings compared
    with literals, as the source compares them.  The two float options
    ([--speed], [--exit-after]) are rationals and the arithmetic on them is
    exact: the rounding of float operations is not modelled. *)

From Stdlib Require Import ZArith NArith QArith Qround Lia Bool Ascii String.
From stdpp Require Import base option list gmap.

Local Open Scope nat_scope.

(** ** Text *)

Module Text.

(** A code point, and a Python [str] as the sequence of its code points. *)
Definition char := N.
Definition str := list char.

(** An ASCII literal of the source as a [str]. *)
Definition lit (s : string) : str :=
  map N_of_ascii (list_ascii_of_string s).

(** What [\s] matches in a [str] pattern: the code points for which
    [str.isspace] holds (CPython's [Py_UNICODE_ISSPACE]). *)
Definition isspace (c : char) : bool :=
  ((0x09 <=? c) && (c <=? 0x0D) || (0x1C <=? c) && (c <=? 0x20)
   || (c =? 0x85) || (c =? 0xA0) || (c =? 0x1680)
   || (0x2000 <=? c) && (c <=? 0x200A)
   || (c =? 0x2028) || (c =? 0x2029) || (c =? 0x202F)
   || (c =? 0x205F) || (c =? 0x3000))%N.

(** The longest prefix whose characters satisfy [p], and what follows it
    ([lstrip] when [p] is [isspace]). *)
Fixpoint take_while (p : char -> bool) (s : str) : str :=
  match s with
  | c :: s' => if p c then c :: take_while p s' else []
  | [] => []
  end.

Fixpoint drop_while (p : char -> bool) (s : str) : str :=
  match s with
  | c :: s' => if p c then drop_while p s' else s
  | [] => []
  end.

Definition lstrip (s : str) : str := drop_while isspace s.

(** [s[:1].isspace()]: the message begins with white space. *)
Definition starts_with_space (s : str) : bool :=
  match s with
  | c :: _ => isspace c
  | [] => false
  end.

(** [''.join(parts)] *)
Definition join (parts : list str) : str := concat parts.

End Text.

Import Text.

(** ** The part of [re] that [tokenize] uses

    A pattern is a sequence of character classes, each taken once or
    repeated greedily.  Matching is by backtracking in the priority order
    of [re]: a greedy repetition first tries to take one more character
    and gives it back when the rest of the pattern fails. *)

Module Re.

Inductive quant := Once | ZeroOrMore | OneOrMore.

Record item := Item { cls : char -> bool; rep : quant }.

Definition pattern := list item.

(** [many p k adv s]: the greedy loop of [p*] followed by the
    continuation [k].  The result is the number of characters the
    whole match takes from [s].  [adv] is [must_advance]: the match
    is refused when it ends where it began. *)
Fixpoint many (p : char -> bool) (k : bool -> str -> option nat)
         (adv : bool) (s : str) : option nat :=
  match s with
  | c :: s' =>
      if p c then
        match many p k false s' with
        | Some n => Some (S n)
        | None => k adv s
        end
      else k adv s
  | [] => k adv []
  end.

Fixpoint match_here (pat : pattern) (adv : bool) (s : str) : option nat :=
  match pat with
  | [] => if adv then None else Some 0
  | it :: pat' =>
      match rep it with
      | Once =>
          match s with
          | c :: s' => if cls it c then S <$> match_here pat' false s' else None
          | [] => None
          end
      | ZeroOrMore => many (cls it) (match_here pat') adv s
      | OneOrMore =>
          match s with
          | c :: s' =>
              if cls it c then S <$> many (cls it) (match_here pat') false s'
              else None
          | [] => None
          end
      end
  end.

(** The lengths of the matches that [findall] reports with their start
    at the head of [s]: none, one, or an empty one followed by the
    non-empty one that [must_advance] then allows. *)
Definition matches_at (pat : pattern) (s : str) : list nat :=
  match match_here pat false s with
  | None => []
  | Some 0 =>
      0 :: match match_here pat true s with
           | Some n => [n]
           | None => []
           end
  | Some n => [n]
  end.

(** The scan of [findall], one character of the subject per step.
    [inside] counts the characters still covered by the last match. *)
Fixpoint scan (pat : pattern) (inside : nat) (s : str) : list str :=
  match inside with
  | S k =>
      match s with
      | _ :: s' => scan pat k s'
      | [] => []
      end
  | 0 =>
      let ns := matches_at pat s in
      map (fun n => take n s) ns ++
      match s with
      | _ :: s' => scan pat (Nat.pred (List.last ns 0)) s'
      | [] => []
      end
  end.

(** [re.findall(pat, s)] for a pattern without groups. *)
Definition findall (pat : pattern) (s : str) : list str := scan pat 0 s.

(** [r"\S+\s*"] *)
Definition word_pattern : pattern :=
  [ Item (fun c => negb (isspace c)) OneOrMore; Item isspace ZeroOrMore ].

End Re.

(** ** tokenize *)

Definition tokenize (message : str) (mode : string) : list str :=
  if String.eqb mode "char" then map (fun c => [c]) message
  else Re.findall Re.word_pattern message.

(** ** Numbers of the source *)

(** [int(x)] of a float: truncation toward zero. *)
Definition py_int (x : Q) : Z := Z.quot (Qnum x) (Zpos (Qden x)).

(** [max(a, b)] of two floats: [b] replaces [a] only when [b > a]. *)
Definition py_max (a b : Q) : Q := if Qle_bool b a then a else b.

(** ** The platform the program calls into *)

(** A connected display as the program sees it. *)
Record Monitor := { connector : string; geometry : Z * Z }.

(** The capabilities that the source treats as given:
    whether the [Gtk4LayerShell] import succeeded, the default display with
    the items of its monitor list, the answer of
    [Gtk4LayerShell.is_layer_window] for a window initialised on a
    monitor, and the pixel width Pango measures for a text in the label. *)
Record Platform := {
  layer_shell : bool;
  display : option (list (option Monitor));
  is_layer_window : Monitor -> bool;
  pixel_width : str -> Z;
}.

(** ** Configuration ([argparse.Namespace]) *)

Record Args := {
  message : str;
  mode : string;
  speed : Q;
  font_size : Z;
  color : string;
  background : string;
  exit_after : Q;
  reveal_position : string;
  all_monitors : bool;
}.

(** ** Widgets *)

Module Gtk.

Inductive Align := ALIGN_FILL | ALIGN_START | ALIGN_END | ALIGN_CENTER.
Inductive Justification := JUSTIFY_LEFT | JUSTIFY_RIGHT | JUSTIFY_CENTER | JUSTIFY_FILL.

Record Label := {
  text : str;
  wrap : bool;
  valign : Align;
  halign : Align;
  xalign : Q;
  justify : Justification;
  size_request : Z * Z;
}.

(** [Gtk.Label(label="")]: the toolkit's defaults, no size requested. *)
Definition new_label : Label :=
  {| text := []; wrap := false; valign := ALIGN_FILL; halign := ALIGN_FILL;
     xalign := 1 # 2; justify := JUSTIFY_LEFT; size_request := (-1, -1)%Z |}.

Definition set_text (t : str) (l : Label) : Label :=
  {| text := t; wrap := wrap l; valign := valign l; halign := halign l;
     xalign := xalign l; justify := justify l; size_request := size_request l |}.
Definition set_wrap (b : bool) (l : Label) : Label :=
  {| text := text l; wrap := b; valign := valign l; halign := halign l;
     xalign := xalign l; justify := justify l; size_request := size_request l |}.
Definition set_valign (a : Align) (l : Label) : Label :=
  {| text := text l; wrap := wrap l; valign := a; halign := halign l;
     xalign := xalign l; justify := justify l; size_request := size_request l |}.
Definition set_halign (a : Align) (l : Label) : Label :=
  {| text := text l; wrap := wrap l; valign := valign l; halign := a;
     xalign := xalign l; justify := justify l; size_request := size_request l |}.
Definition set_xalign (x : Q) (l : Label) : Label :=
  {| text := text l; wrap := wrap l; valign := valign l; halign := halign l;
     xalign := x; justify := justify l; size_request := size_request l |}.
Definition set_justify (j : Justification) (l : Label) : Label :=
  {| text := text l; wrap := wrap l; valign := valign l; halign := halign l;
     xalign := xalign l; justify := j; size_request := size_request l |}.
Definition set_size_request (w h : Z) (l : Label) : Label :=
  {| text := text l; wrap := wrap l; valign := valign l; halign := halign l;
     xalign := xalign l; justify := justify l; size_request := (w, h) |}.

(** Key values of [Gdk]. *)
Definition KEY_Escape : Z := 0xff1b.
Definition KEY_Return : Z := 0xff0d.
Definition KEY_KP_Enter : Z := 0xff8d.

End Gtk.

(** What [_setup_layer_shell] asks of the compositor for a window. *)
Module LayerShell.

Inductive Edge := LEFT | RIGHT | TOP | BOTTOM.
Inductive Layer := BACKGROUND | BOTTOM_LAYER | TOP_LAYER | OVERLAY.
Inductive KeyboardMode := NONE | EXCLUSIVE | ON_DEMAND.

Record Surface := {
  namespace : string;
  layer : Layer;
  monitor : Monitor;
  keyboard_mode : KeyboardMode;
  exclusive_zone : Z;
  anchors : list (Edge * bool);
  margins : list (Edge * Z);
}.

End LayerShell.

(** ** MessageWindow *)

(** The two bound methods that the window hands to [GLib.timeout_add]. *)
Inductive Callback := cb_tick | cb_exit.

(** What a method asks of the main loop and of the application. *)
Inductive Effect :=
| timeout_add (interval : Z) (cb : Callback)
| app_quit.

Record MessageWindow := {
  args : Args;
  tokens : list str;
  index : nat;
  current_text : str;
  exit_scheduled : bool;
  layer_shell_enabled : bool;
  label : Gtk.Label;
  (* toolkit side of the object *)
  surface : option LayerShell.Surface;
  window_size : option (Z * Z);
  destroyed : bool;
}.

(** A method of the window: the object after the call, what it asked for,
    and the value returned. *)
Definition Method (A : Type) : Type := MessageWindow -> A * MessageWindow * list Effect.

Definition result {A} (r : A * MessageWindow * list Effect) : A := fst (fst r).
Definition after {A} (r : A * MessageWindow * list Effect) : MessageWindow := snd (fst r).
Definition effects {A} (r : A * MessageWindow * list Effect) : list Effect := snd r.

Definition ret {A} (a : A) : Method A := fun self => (a, self, []).

Definition bind {A B} (m : Method A) (k : A -> Method B) : Method B :=
  fun self =>
    let '(a, self1, e1) := m self in
    let '(b, self2, e2) := k a self1 in
    (b, self2, e1 ++ e2).

Definition get : Method MessageWindow := fun self => (self, self, []).
Definition update (f : MessageWindow -> MessageWindow) : Method unit :=
  fun self => (tt, f self, []).
Definition emit (e : Effect) : Method unit := fun self => (tt, self, [e]).

Declare Scope method_scope.
Delimit Scope method_scope with method.
Notation "x <- m ;; k" := (bind m (fun x => k))
  (at level 100, m at next level, right associativity) : method_scope.
Notation "m ;; k" := (bind m (fun _ => k))
  (at level 100, right associativity) : method_scope.
Local Open Scope method_scope.

Definition with_label (f : Gtk.Label -> Gtk.Label) (self : MessageWindow) : MessageWindow :=
  {| args := args self; tokens := tokens self; index := index self;
     current_text := current_text self; exit_scheduled := exit_scheduled self;
     layer_shell_enabled := layer_shell_enabled self; label := f (label self);
     surface := surface self; window_size := window_size self;
     destroyed := destroyed self |}.

Definition set_exit_scheduled (b : bool) (self : MessageWindow) : MessageWindow :=
  {| args := args self; tokens := tokens self; index := index self;
     current_text := current_text self; exit_scheduled := b;
     layer_shell_enabled := layer_shell_enabled self; label := label self;
     surface := surface self; window_size := window_size self;
     destroyed := destroyed self |}.

(** [self.current_text += self.tokens[self.index]; self.index += 1].
    The callers test [index < len(tokens)] first, so the subscript is in
    range. *)
Definition append_token (self : MessageWindow) : MessageWindow :=
  {| args := args self; tokens := tokens self; index := S (index self);
     current_text := current_text self ++ nth (index self) (tokens self) [];
     exit_scheduled := exit_scheduled self;
     layer_shell_enabled := layer_shell_enabled self; label := label self;
     surface := surface self; window_size := window_size self;
     destroyed := destroyed self |}.

(** [Gtk.Window.destroy]: the window leaves its application. *)
Definition destroy (self : MessageWindow) : MessageWindow :=
  {| args := args self; tokens := tokens self; index := index self;
     current_text := current_text self; exit_scheduled := exit_scheduled self;
     layer_shell_enabled := layer_shell_enabled self; label := label self;
     surface := surface self; window_size := window_size self;
     destroyed := true |}.

(** [self.get_application() is not None] *)
Definition has_application (self : MessageWindow) : bool := negb (destroyed self).

Definition _reserve_final_width (env : Platform) : Method unit :=
  self <- get ;;
  let width := pixel_width env (message (args self)) in
  if (0 <? width)%Z then update (with_label (Gtk.set_size_request width (-1)))
  else ret tt.

Definition _apply_reveal_position (env : Platform) (is_animation_done : bool) : Method unit :=
  self <- get ;;
  let mode := reveal_position (args self) in
  if String.eqb mode "center" then
    update (with_label (Gtk.set_halign Gtk.ALIGN_CENTER)) ;;
    update (with_label (Gtk.set_xalign (1 # 2))) ;;
    update (with_label (Gtk.set_justify Gtk.JUSTIFY_CENTER)) ;;
    update (with_label (Gtk.set_size_request (-1) (-1)))
  else if String.eqb mode "left" then
    update (with_label (Gtk.set_halign Gtk.ALIGN_CENTER)) ;;
    update (with_label (Gtk.set_xalign 0)) ;;
    update (with_label (Gtk.set_justify Gtk.JUSTIFY_LEFT)) ;;
    update (with_label (Gtk.set_size_request (-1) (-1)))
  else if is_animation_done then
    update (with_label (Gtk.set_halign Gtk.ALIGN_CENTER)) ;;
    update (with_label (Gtk.set_xalign (1 # 2))) ;;
    update (with_label (Gtk.set_justify Gtk.JUSTIFY_CENTER)) ;;
    update (with_label (Gtk.set_size_request (-1) (-1)))
  else
    update (with_label (Gtk.set_halign Gtk.ALIGN_CENTER)) ;;
    update (with_label (Gtk.set_xalign 0)) ;;
    update (with_label (Gtk.set_justify Gtk.JUSTIFY_LEFT)) ;;
    _reserve_final_width env.

Definition _schedule_exit_if_needed : Method unit :=
  self <- get ;;
  if Qle_bool (exit_after (args self)) 0 || exit_scheduled self then ret tt
  else
    update (set_exit_scheduled true) ;;
    emit (timeout_add (py_int (exit_after (args self) * 1000)) cb_exit).

Definition _exit : Method bool :=
  self <- get ;;
  (if has_application self then emit app_quit else ret tt) ;;
  ret false.

Definition _on_key_pressed (keyval : Z) : Method bool :=
  self <- get ;;
  if ((keyval =? Gtk.KEY_Escape) || (keyval =? Gtk.KEY_Return)
      || (keyval =? Gtk.KEY_KP_Enter))%Z
  then (if has_application self then emit app_quit else ret tt) ;; ret true
  else ret false.

(** The period of the reveal timer,
    [max(1, int(1000 / max(self.args.speed, 0.01)))]. *)
Definition interval_ms (speed : Q) : Z :=
  Z.max 1 (py_int (1000 / py_max speed (1 # 100))).

Definition start_animation (env : Platform) : Method unit :=
  self <- get ;;
  match tokens self with
  | [] =>
      _apply_reveal_position env true ;;
      _schedule_exit_if_needed
  | _ :: _ =>
      emit (timeout_add (interval_ms (speed (args self))) cb_tick)
  end.

Definition _tick (env : Platform) : Method bool :=
  self <- get ;;
  if length (tokens self) <=? index self then
    _apply_reveal_position env true ;;
    _schedule_exit_if_needed ;;
    ret false
  else
    update append_token ;;
    self <- get ;;
    update (with_label (Gtk.set_text (current_text self))) ;;
    if length (tokens self) <=? index self then
      _apply_reveal_position env true ;;
      _schedule_exit_if_needed ;;
      ret false
    else ret true.

Definition set_layer_shell_enabled (b : bool) (self : MessageWindow) : MessageWindow :=
  {| args := args self; tokens := tokens self; index := index self;
     current_text := current_text self; exit_scheduled := exit_scheduled self;
     layer_shell_enabled := b; label := label self;
     surface := surface self; window_size := window_size self;
     destroyed := destroyed self |}.

Definition set_surface (size : Z * Z) (s : LayerShell.Surface) (self : MessageWindow)
  : MessageWindow :=
  {| args := args self; tokens := tokens self; index := index self;
     current_text := current_text self; exit_scheduled := exit_scheduled self;
     layer_shell_enabled := layer_shell_enabled self; label := label self;
     surface := Some s; window_size := Some size;
     destroyed := destroyed self |}.

Definition _setup_layer_shell (env : Platform) (monitor : Monitor) : Method bool :=
  if negb (is_layer_window env monitor) then ret false
  else
    update (set_surface (geometry monitor)
              {| LayerShell.namespace := "autheos_message";
                 LayerShell.layer := LayerShell.OVERLAY;
                 LayerShell.monitor := monitor;
                 LayerShell.keyboard_mode := LayerShell.ON_DEMAND;
                 LayerShell.exclusive_zone := 0;
                 LayerShell.anchors :=
                   map (fun e => (e, true))
                     [LayerShell.LEFT; LayerShell.RIGHT; LayerShell.TOP; LayerShell.BOTTOM];
                 LayerShell.margins :=
                   map (fun e => (e, 0%Z))
                     [LayerShell.LEFT; LayerShell.RIGHT; LayerShell.TOP; LayerShell.BOTTOM]
              |}) ;;
    ret true.

(** The label of [_build_ui]; the boxes around it carry no state of the
    controller. *)
Definition _build_ui (env : Platform) : Method unit :=
  update (with_label (fun _ => Gtk.new_label)) ;;
  update (with_label (Gtk.set_wrap true)) ;;
  update (with_label (Gtk.set_valign Gtk.ALIGN_CENTER)) ;;
  _apply_reveal_position env false.

(** What [__init__] does once the fields are assigned.  The style sheet
    and the key controller it installs hold no state of their own. *)
Definition __init__ (env : Platform) (monitor : option Monitor) : Method unit :=
  match monitor with
  | Some mon =>
      if layer_shell env then
        ok <- _setup_layer_shell env mon ;;
        update (set_layer_shell_enabled ok)
      else ret tt
  | None => ret tt
  end ;;
  _build_ui env.

(** [MessageWindow(app, args, monitor)] *)
Definition new_MessageWindow (env : Platform) (a : Args) (monitor : option Monitor)
  : MessageWindow :=
  let fields :=
    {| args := a; tokens := tokenize (message a) (mode a); index := 0;
       current_text := []; exit_scheduled := false; layer_shell_enabled := false;
       label := Gtk.new_label; surface := None; window_size := None;
       destroyed := false |} in
  after (__init__ env monitor fields).

(** ** The main loop seen from one window *)

(** A recurring [GLib] timeout source: the callback runs once per period
    for as long as it returns [True].  The result counts the calls up to
    and including the one that returned [False]; [None] when the source is
    still armed after [fuel] periods. *)
Fixpoint timeout_loop (fuel : nat) (callback : Method bool) : Method (option nat) :=
  match fuel with
  | 0 => ret None
  | S fuel' =>
      again <- callback ;;
      if again : bool then
        n <- timeout_loop fuel' callback ;;
        ret (S <$> n)
      else ret (Some 1)
  end.

Definition is_tick_timer (e : Effect) : bool :=
  match e with
  | timeout_add _ cb_tick => true
  | _ => false
  end.

Definition is_exit_timer (e : Effect) : bool :=
  match e with
  | timeout_add _ cb_exit => true
  | _ => false
  end.

(** [start_animation] followed by the life of the timer it may have
    added; the result is the number of calls of [_tick]. *)
Definition reveal (env : Platform) (fuel : nat) : Method (option nat) :=
  fun self =>
    let '(_, self1, e1) := start_animation env self in
    if existsb is_tick_timer e1 then
      let '(n, self2, e2) := timeout_loop fuel (_tick env) self1 in
      (n, self2, e1 ++ e2)
    else (Some 0, self1, e1).

(** The state after [k] calls of [_tick]. *)
Fixpoint ticks (env : Platform) (k : nat) (self : MessageWindow) : MessageWindow :=
  match k with
  | 0 => self
  | S k' => after (_tick env (ticks env k' self))
  end.

(** The entry points through which the toolkit reaches a window once it
    is built. *)
Inductive Call :=
| call_start_animation
| call_tick
| call_exit
| call_key_pressed (keyval : Z).

Definition invoke (env : Platform) (c : Call) : Method unit :=
  match c with
  | call_start_animation => start_animation env
  | call_tick => _tick env ;; ret tt
  | call_exit => _exit ;; ret tt
  | call_key_pressed keyval => _on_key_pressed keyval ;; ret tt
  end.

Fixpoint run_calls (env : Platform) (cs : list Call) : Method unit :=
  match cs with
  | [] => ret tt
  | c :: cs' => invoke env c ;; run_calls env cs'
  end.

(** ** MessageApp *)

Record MessageApp := {
  app_args : Args;
  windows : list nat;
  animation_started : bool;
}.

(** A timeout source of the main loop: the window whose method it calls. *)
Record Source := { owner : nat; period : Z; callback : Callback }.

(** The application object, every window object created so far (a window
    is named by its position here, so [windows] and the timeout sources
    share the objects they refer to), the sources of the main loop, and
    what the program has asked of the outside. *)
Record World := {
  app : MessageApp;
  heap : list MessageWindow;
  sources : list Source;
  presented : list nat;
  stderr : list string;
  quit : bool;
}.

Definition set_windows (ws : list nat) (w : World) : World :=
  {| app := {| app_args := app_args (app w); windows := ws;
               animation_started := animation_started (app w) |};
     heap := heap w; sources := sources w; presented := presented w;
     stderr := stderr w; quit := quit w |}.

Definition set_animation_started (b : bool) (w : World) : World :=
  {| app := {| app_args := app_args (app w); windows := windows (app w);
               animation_started := b |};
     heap := heap w; sources := sources w; presented := presented w;
     stderr := stderr w; quit := quit w |}.

Definition set_heap (h : list MessageWindow) (w : World) : World :=
  {| app := app w; heap := h; sources := sources w; presented := presented w;
     stderr := stderr w; quit := quit w |}.

Definition set_sources (s : list Source) (w : World) : World :=
  {| app := app w; heap := heap w; sources := s; presented := presented w;
     stderr := stderr w; quit := quit w |}.

Definition print_stderr (line : string) (w : World) : World :=
  {| app := app w; heap := heap w; sources := sources w; presented := presented w;
     stderr := stderr w ++ [line]; quit := quit w |}.

Definition present (id : nat) (w : World) : World :=
  {| app := app w; heap := heap w; sources := sources w;
     presented := presented w ++ [id]; stderr := stderr w; quit := quit w |}.

Definition request_quit (w : World) : World :=
  {| app := app w; heap := heap w; sources := sources w; presented := presented w;
     stderr := stderr w; quit := true |}.

(** [MessageApp(args)] before the main loop runs. *)
Definition new_MessageApp (a : Args) : World :=
  {| app := {| app_args := a; windows := []; animation_started := false |};
     heap := []; sources := []; presented := []; stderr := []; quit := false |}.

(** A new window object; its name is the next free position. *)
Definition allocate (self : MessageWindow) (w : World) : nat * World :=
  (length (heap w), set_heap (heap w ++ [self]) w).

Definition destroy_window (id : nat) (w : World) : World :=
  set_heap (alter destroy id (heap w)) w.

Definition perform (id : nat) (w : World) (e : Effect) : World :=
  match e with
  | timeout_add ms cb =>
      set_sources (sources w ++ [{| owner := id; period := ms; callback := cb |}]) w
  | app_quit => request_quit w
  end.

(** A method call on the window object [id]. *)
Definition call {A} (id : nat) (m : Method A) (w : World) : option A * World :=
  match heap w !! id with
  | Some self =>
      let '(a, self', es) := m self in
      (Some a, foldl (perform id) (set_heap (<[id := self']> (heap w)) w) es)
  | None => (None, w)
  end.

Definition warn_no_layer_shell : string :=
  "Warning: gtk4-layer-shell not available, falling back to one monitor.".

Definition warn_init_failed : string :=
  "Warning: Layer-shell init failed, falling back to one monitor. Try starting with LD_PRELOAD=libgtk4-layer-shell.so.0".

(** The loop of [_build_windows] over the items of the monitor list. *)
Fixpoint build_each (env : Platform) (monitors : list (option Monitor)) (w : World)
  : World :=
  match monitors with
  | [] => w
  | None :: rest => build_each env rest w
  | Some monitor :: rest =>
      let self := new_MessageWindow env (app_args (app w)) (Some monitor) in
      let '(window, w1) := allocate self w in
      if negb (layer_shell_enabled self) then
        let w2 := destroy_window window w1 in
        let w3 := foldl (fun w old_window => destroy_window old_window w)
                    w2 (windows (app w2)) in
        print_stderr warn_init_failed (set_windows [] w3)
      else
        build_each env rest (set_windows (windows (app w1) ++ [window]) w1)
  end.

Definition _build_windows (env : Platform) (w : World) : World :=
  match windows (app w) with
  | _ :: _ => w
  | [] =>
      let a := app_args (app w) in
      let w1 :=
        if all_monitors a && negb (layer_shell env)
        then print_stderr warn_no_layer_shell w else w in
      let w2 :=
        if all_monitors a && layer_shell env then
          match display env with
          | Some monitors => build_each env monitors w1
          | None => w1
          end
        else w1 in
      match windows (app w2) with
      | [] =>
          let '(window, w3) := allocate (new_MessageWindow env a None) w2 in
          set_windows (windows (app w3) ++ [window]) w3
      | _ :: _ => w2
      end
  end.

Definition do_activate (env : Platform) (w : World) : World :=
  let w1 := _build_windows env w in
  let w2 := foldl (fun w window => present window w) w1 (windows (app w1)) in
  if animation_started (app w2) then w2
  else
    let w3 := foldl (fun w window => snd (call window (start_animation env) w))
                w2 (windows (app w2)) in
    set_animation_started true w3.

(** ** The main loop *)

Definition method_of (env : Platform) (cb : Callback) : Method bool :=
  match cb with
  | cb_tick => _tick env
  | cb_exit => _exit
  end.

(** The [i]-th source fires: its callback runs, and the source is removed
    unless the callback returned [True]. *)
Definition dispatch (env : Platform) (i : nat) (w : World) : World :=
  match sources w !! i with
  | Some src =>
      let '(again, w1) := call (owner src) (method_of env (callback src)) w in
      match again with
      | Some true => w1
      | _ => set_sources (delete i (sources w1)) w1
      end
  | None => w
  end.

Inductive Event :=
| ev_activate
| ev_timeout (i : nat)
| ev_key (window : nat) (keyval : Z).

Definition step (env : Platform) (w : World) (ev : Event) : World :=
  match ev with
  | ev_activate => do_activate env w
  | ev_timeout i => dispatch env i w
  | ev_key window keyval => snd (call window (_on_key_pressed keyval) w)
  end.

Definition run (env : Platform) (evs : list Event) (w : World) : World :=
  foldl (step env) w evs.

(** ** Preloading the layer-shell library

    The two functions that run before [gi] is imported.  What they read
    from the outside is the answer of [ctypes.util.find_library], which
    paths exist, whether the module runs as [__main__], and
    [os.environ], a dictionary from names to values. *)

Module Preload.

Record Os := {
  find_library : str -> option str;
  path_exists : str -> bool;
}.

(** [os.path.isabs] on a POSIX system. *)
Definition isabs (path : str) : bool :=
  match path with
  | c :: _ => (c =? 0x2F)%N
  | [] => false
  end.

Fixpoint startswith (s prefix : str) : bool :=
  match prefix, s with
  | [], _ => true
  | a :: prefix', b :: s' => (a =? b)%N && startswith s' prefix'
  | _ :: _, [] => false
  end.

(** [needle in s] *)
Fixpoint contains (s needle : str) : bool :=
  startswith s needle
  || match s with
     | _ :: s' => contains s' needle
     | [] => false
     end.

(** [s.strip()] *)
Definition rstrip (s : str) : str := rev (drop_while isspace (rev s)).
Definition strip (s : str) : str := rstrip (lstrip s).

(** The names that [candidates.extend] adds. *)
Definition fallbacks : list str :=
  [ lit "libgtk4-layer-shell.so.0";
    lit "libgtk4-layer-shell.so";
    lit "/usr/lib/libgtk4-layer-shell.so.0";
    lit "/usr/lib/libgtk4-layer-shell.so";
    lit "/usr/lib64/libgtk4-layer-shell.so.0";
    lit "/usr/lib64/libgtk4-layer-shell.so" ].

(** The loop over the candidates. *)
Fixpoint first_usable (os : Os) (candidates : list str) : option str :=
  match candidates with
  | [] => None
  | candidate :: rest =>
      if isabs candidate then
        if path_exists os candidate then Some candidate
        else first_usable os rest
      else Some candidate
  end.

Definition _find_gtk4_layer_shell_library (os : Os) : option str :=
  let detected := find_library os (lit "gtk4-layer-shell") in
  let candidates :=
    match detected with
    | Some (c :: d) => [c :: d]
    | _ => []
    end ++ fallbacks in
  first_usable os candidates.

(** How [_ensure_layer_shell_preloaded] ends: it returns, or the process
    is replaced by the same command line under a new environment. *)
Inductive Outcome :=
| Return
| Execvpe (env : gmap str str).

Definition _ensure_layer_shell_preloaded
    (os : Os) (is_main : bool) (environ : gmap str str) : Outcome :=
  if negb is_main then Return
  else if bool_decide (environ !! lit "HYPR_MESSAGE_PRELOAD_DONE" = Some (lit "1"))
  then Return
  else if bool_decide (environ !! lit "HYPR_MESSAGE_DISABLE_PRELOAD" = Some (lit "1"))
  then Return
  else
    let current_preload := default [] (environ !! lit "LD_PRELOAD") in
    if contains current_preload (lit "gtk4-layer-shell") then Return
    else
      match _find_gtk4_layer_shell_library os with
      | None | Some [] => Return
      | Some library =>
          let env := <[lit "LD_PRELOAD" := strip (library ++ lit " " ++ current_preload)]> environ in
          let env := <[lit "HYPR_MESSAGE_PRELOAD_DONE" := lit "1"]> env in
          Execvpe env
      end.

End Preload.

(** ** What the claims speak of *)

Definition nonspace (c : char) : bool := negb (isspace c).

(** A string of one or more non-space characters followed by zero or more
    space characters. *)
Definition word_token (t : str) : Prop :=
  exists w sp : str,
    t = w ++ sp /\ w <> [] /\
    Forall (fun c => isspace c = false) w /\
    Forall (fun c => isspace c = true) sp.

(** The first match of [\S+\s*] in a string that begins with a non-space
    character, and the rest of the string after it. *)
Definition first_word (s : str) : str :=
  take_while nonspace s ++ take_while isspace (drop_while nonspace s).

Definition after_word (s : str) : str :=
  drop_while isspace (drop_while nonspace s).

(** [round(x)]: the nearest integer, a tie going to the even one. *)
Definition py_round (x : Q) : Z :=
  let f := Qfloor x in
  match (x - inject_Z f ?= 1 # 2)%Q with
  | Lt => f
  | Gt => (f + 1)%Z
  | Eq => if Z.even f then f else (f + 1)%Z
  end.

(** The period as the spec words it,
    [max(1ms, round(1000 / max(speed, epsilon)))], with the [epsilon] of
    the source. *)
Definition spec_interval_ms (speed : Q) : Z :=
  Z.max 1 (py_round (1000 / py_max speed (1 # 100))).

(** The layout that [_apply_reveal_position] gives the label once the
    animation is done: centred, with no size requested; the text itself
    is centred too unless the policy is [left]. *)
Definition final_layout (a : Args) (l : Gtk.Label) : Prop :=
  Gtk.halign l = Gtk.ALIGN_CENTER /\
  Gtk.size_request l = (-1, -1)%Z /\
  if String.eqb (reveal_position a) "left"
  then Gtk.xalign l = 0%Q /\ Gtk.justify l = Gtk.JUSTIFY_LEFT
  else Gtk.xalign l = (1 # 2)%Q /\ Gtk.justify l = Gtk.JUSTIFY_CENTER.

(** The controller is done when every token has been revealed. *)
Definition done (self : MessageWindow) : bool :=
  length (tokens self) <=? index self.

(** The invariant of the controller: what has been revealed is the
    concatenation of the tokens before [index]. *)
Definition revealed (self : MessageWindow) : Prop :=
  index self <= length (tokens self) /\
  current_text self = join (take (index self) (tokens self)).

(** The window as [__init__] leaves it, before [start_animation]. *)
Definition idle (self : MessageWindow) : Prop :=
  index self = 0 /\ current_text self = [] /\ Gtk.text (label self) = [] /\
  exit_scheduled self = false.

Definition tick_timers (es : list Effect) : list Effect := List.filter is_tick_timer es.
Definition exit_timers (es : list Effect) : list Effect := List.filter is_exit_timer es.

(** What a run of calls tells of the auto-close timer: either none was
    added and the flag is as before, or exactly one was added, by a window
    whose delay is positive and whose flag was clear, and the flag is now
    set. *)
Definition exit_outcome {A} (self : MessageWindow) (r : A * MessageWindow * list Effect)
  : Prop :=
  args (after r) = args self /\
  (exit_timers (effects r) = [] /\ exit_scheduled (after r) = exit_scheduled self
   \/
   exit_timers (effects r)
   = [timeout_add (py_int (exit_after (args self) * 1000)) cb_exit] /\
   Qle_bool (exit_after (args self)) 0 = false /\
   exit_scheduled self = false /\ exit_scheduled (after r) = true).

(** A platform on which the zero-width space takes no room, and a message
    made of it. *)
Definition narrow_platform : Platform :=
  {| layer_shell := false; display := None; is_layer_window := fun _ => false;
     pixel_width := fun s => (40 * Z.of_nat (length (List.filter (fun c => negb (c =? 0x200B)%N) s)))%Z |}.

Definition zero_width_args : Args :=
  {| message := [0x200B%N]; mode := "char"; speed := 15; font_size := 72;
     color := "#ffffff"; background := "rgba(0, 0, 0, 0.0)"; exit_after := 1;
     reveal_position := "left-to-center"; all_monitors := true |}.

(** The application after its first activation: it has its windows and
    the animations are started. *)
Definition activated (w : World) : Prop :=
  windows (app w) <> [] /\ animation_started (app w) = true.

(** ** Concrete inputs *)

(** Three monitors, of which the second does not take a layer surface;
    the item between the first two is one that [get_item] did not
    return.  Text is measured at forty pixels a character. *)
Definition demo_platform : Platform :=
  {| layer_shell := true;
     display :=
       Some [ Some {| connector := "DP-1"; geometry := (2560, 1440)%Z |};
              None;
              Some {| connector := "HDMI-A-1"; geometry := (1920, 1080)%Z |};
              Some {| connector := "DP-2"; geometry := (1920, 1200)%Z |} ];
     is_layer_window := fun mon => negb (String.eqb (connector mon) "HDMI-A-1");
     pixel_width := fun s => (40 * Z.of_nat (length s))%Z |}.

(** The defaults of [parse_args] for a given message, mode and policy. *)
Definition demo_args (text : string) (mode policy : string) : Args :=
  {| message := lit text; mode := mode; speed := 15; font_size := 72;
     color := "#ffffff"; background := "rgba(0, 0, 0, 0.0)"; exit_after := 1;
     reveal_position := policy; all_monitors := true |}.

(** A window of the demo platform that is tied to no monitor. *)
Definition demo_window (text : string) (mode policy : string) : MessageWindow :=
  new_MessageWindow demo_platform (demo_args text mode policy) None.

(** The window of the zero-width message, and the same once
    [start_animation] has returned and its one token is still to come. *)
Definition zero_width_window : MessageWindow :=
  new_MessageWindow narrow_platform zero_width_args None.

Definition zero_width_animating : MessageWindow :=
  after (start_animation narrow_platform zero_width_window).

(** ** What the further properties speak of *)

(** [s[-1:].isspace()]: the string ends with white space. *)
Definition ends_with_space (s : str) : bool :=
  match last s with
  | Some c => isspace c
  | None => false
  end.

(** The monitors that [get_item] returned, in the order of the list. *)
Definition listed (monitors : list (option Monitor)) : list Monitor :=
  omap id monitors.

(** The keys on which [_on_key_pressed] quits. *)
Definition is_quit_key (keyval : Z) : bool :=
  ((keyval =? Gtk.KEY_Escape) || (keyval =? Gtk.KEY_Return)
   || (keyval =? Gtk.KEY_KP_Enter))%Z.

(** The calls that can ask the application to quit. *)
Definition may_quit (c : Call) : bool :=
  match c with
  | call_exit => true
  | call_key_pressed keyval => is_quit_key keyval
  | _ => false
  end.

(** The part of the message that the window shows in the end. *)
Definition shown (a : Args) : str :=
  if String.eqb (mode a) "char" then message a else lstrip (message a).

(** The surface that [_setup_layer_shell] sets up on a monitor. *)
Definition full_screen_overlay (mon : Monitor) : LayerShell.Surface :=
  {| LayerShell.namespace := "autheos_message";
     LayerShell.layer := LayerShell.OVERLAY;
     LayerShell.monitor := mon;
     LayerShell.keyboard_mode := LayerShell.ON_DEMAND;
     LayerShell.exclusive_zone := 0;
     LayerShell.anchors :=
       [(LayerShell.LEFT, true); (LayerShell.RIGHT, true);
        (LayerShell.TOP, true); (LayerShell.BOTTOM, true)];
     LayerShell.margins :=
       [(LayerShell.LEFT, 0%Z); (LayerShell.RIGHT, 0%Z);
        (LayerShell.TOP, 0%Z); (LayerShell.BOTTOM, 0%Z)] |}.

(** How the label is aligned under the two policies that do not depend
    on the state of the animation. *)
Definition policy_alignment (a : Args) (l : Gtk.Label) : Prop :=
  Gtk.halign l = Gtk.ALIGN_CENTER /\
  if String.eqb (reveal_position a) "center"
  then Gtk.xalign l = (1 # 2)%Q /\ Gtk.justify l = Gtk.JUSTIFY_CENTER
  else if String.eqb (reveal_position a) "left"
       then Gtk.xalign l = 0%Q /\ Gtk.justify l = Gtk.JUSTIFY_LEFT
       else True.

(** A system on which [ctypes] finds no library and no path exists, and
    the environment that the first run hands to the second when it starts
    from an empty one. *)
Definition bare_os : Preload.Os :=
  {| Preload.find_library := fun _ => None; Preload.path_exists := fun _ => false |}.

Definition preloaded_environ : gmap str str :=
  <[lit "HYPR_MESSAGE_PRELOAD_DONE" := lit "1"]>
    (<[lit "LD_PRELOAD" := lit "libgtk4-layer-shell.so.0"]> ∅).

(** A platform whose two monitors both take a layer surface. *)
Definition two_monitors : Platform :=
  {| layer_shell := true;
     display :=
       Some [ Some {| connector := "DP-1"; geometry := (2560, 1440)%Z |};
              Some {| connector := "DP-2"; geometry := (1920, 1200)%Z |} ];
     is_layer_window := fun _ => true;
     pixel_width := fun s => (40 * Z.of_nat (length s))%Z |}.

(* ================================================================= *)
(** * Properties *)

(** ** Character classes and the greedy loop *)

Section Classes.

Variable p : char -> bool.

Lemma take_drop_while (s : str) : take_while p s ++ drop_while p s = s.
Proof.
  induction s as [|c s IH]; simpl; [reflexivity|].
  destruct (p c); simpl; [now rewrite IH | reflexivity].
Qed.

Lemma drop_while_length (s : str) : length (drop_while p s) <= length s.
Proof.
  induction s as [|c s IH]; simpl; [lia|].
  destruct (p c); simpl; lia.
Qed.

Lemma take_while_Forall (s : str) : Forall (fun c => p c = true) (take_while p s).
Proof.
  induction s as [|c s IH]; simpl; [constructor|].
  destruct (p c) eqn:E; constructor; assumption.
Qed.

(** When the continuation never fails, the loop takes the longest run
    and never gives a character back. *)
Lemma many_greedy (k : bool -> str -> option nat) (f : str -> nat) :
  (forall s, k false s = Some (f s)) ->
  forall s, Re.many p k false s
            = Some (length (take_while p s) + f (drop_while p s)).
Proof.
  intros Hk. induction s as [|c s IH]; simpl.
  - apply Hk.
  - destruct (p c); simpl.
    + rewrite IH. reflexivity.
    + apply Hk.
Qed.

End Classes.

Lemma scan_inside (pat : Re.pattern) (a s : str) :
  Re.scan pat (length a) (a ++ s) = Re.scan pat 0 s.
Proof. induction a as [|c a IH]; simpl; [reflexivity | exact IH]. Qed.

Lemma match_word_cons (c : char) (s : str) :
  Re.match_here Re.word_pattern false (c :: s)
  = if isspace c then None else Some (S (length (first_word s))).
Proof.
  unfold Re.word_pattern. simpl.
  destruct (isspace c); simpl; [reflexivity|].
  rewrite (many_greedy (fun c => negb (isspace c)) _
             (fun s => length (take_while isspace s))).
  - simpl. unfold first_word, nonspace. rewrite length_app. reflexivity.
  - intros s'. rewrite (many_greedy isspace _ (fun _ => 0)).
    + f_equal. lia.
    + reflexivity.
Qed.

Lemma first_after_word (s : str) : first_word s ++ after_word s = s.
Proof.
  unfold first_word, after_word. rewrite <- app_assoc.
  rewrite take_drop_while. apply take_drop_while.
Qed.

Lemma after_word_length (s : str) : length (after_word s) <= length s.
Proof.
  unfold after_word.
  pose proof (drop_while_length isspace (drop_while nonspace s)).
  pose proof (drop_while_length nonspace s). lia.
Qed.

(** The equations of the scan for [\S+\s*]. *)
Lemma findall_word_space (c : char) (s : str) :
  isspace c = true ->
  Re.findall Re.word_pattern (c :: s) = Re.findall Re.word_pattern s.
Proof.
  intros Hc. unfold Re.findall. simpl Re.scan. unfold Re.matches_at.
  rewrite match_word_cons, Hc. reflexivity.
Qed.

Lemma findall_word_nonspace (c : char) (s : str) :
  isspace c = false ->
  Re.findall Re.word_pattern (c :: s)
  = (c :: first_word s) :: Re.findall Re.word_pattern (after_word s).
Proof.
  intros Hc. unfold Re.findall. simpl Re.scan. unfold Re.matches_at.
  rewrite match_word_cons, Hc. simpl.
  pose proof (first_after_word s) as E.
  set (a := first_word s) in *. set (b := after_word s) in *.
  rewrite <- E, take_app_length, scan_inside. reflexivity.
Qed.

Lemma lstrip_after_word (s : str) : lstrip (after_word s) = after_word s.
Proof.
  unfold lstrip, after_word.
  induction (drop_while nonspace s) as [|c t IH]; simpl; [reflexivity|].
  destruct (isspace c) eqn:E; simpl; [exact IH | now rewrite E].
Qed.

(** Induction on a message along the scan: the empty message, a message
    that begins with a space character, and one that begins with a word. *)
Lemma scan_ind (P : str -> Prop) :
  P [] ->
  (forall c s, isspace c = true -> P s -> P (c :: s)) ->
  (forall c s, isspace c = false -> P (after_word s) -> P (c :: s)) ->
  forall s, P s.
Proof.
  intros Hnil Hsp Hword s.
  remember (length s) as n eqn:Hn.
  revert s Hn. induction n as [n IH] using lt_wf_ind. intros s Hn.
  destruct s as [|c s]; [exact Hnil|].
  destruct (isspace c) eqn:E.
  - apply Hsp; [exact E|]. apply (IH (length s)); [simpl in Hn; lia | reflexivity].
  - apply Hword; [exact E|].
    apply (IH (length (after_word s))); [|reflexivity].
    pose proof (after_word_length s). simpl in Hn. lia.
Qed.

Lemma findall_word_join (s : str) :
  join (Re.findall Re.word_pattern s) = lstrip s.
Proof.
  induction s as [|c s Hc IH|c s Hc IH] using scan_ind.
  - reflexivity.
  - rewrite findall_word_space by exact Hc.
    unfold lstrip in *. simpl. now rewrite Hc.
  - rewrite findall_word_nonspace by exact Hc.
    unfold join in *. simpl. rewrite IH, lstrip_after_word, first_after_word.
    unfold lstrip. simpl. now rewrite Hc.
Qed.

Lemma findall_word_tokens (s : str) :
  Forall word_token (Re.findall Re.word_pattern s).
Proof.
  induction s as [|c s Hc IH|c s Hc IH] using scan_ind.
  - constructor.
  - now rewrite findall_word_space.
  - rewrite findall_word_nonspace by exact Hc. constructor; [|exact IH].
    exists (c :: take_while nonspace s),
           (take_while isspace (drop_while nonspace s)).
    repeat split.
    + discriminate.
    + constructor; [exact Hc|].
      eapply Forall_impl; [apply take_while_Forall|].
      unfold nonspace. intros x Hx. simpl in Hx. now destruct (isspace x).
    + apply take_while_Forall.
Qed.

Lemma lstrip_fixed (s : str) : lstrip s = s <-> starts_with_space s = false.
Proof.
  unfold lstrip. destruct s as [|c s]; simpl; [tauto|].
  destruct (isspace c) eqn:E; [|tauto].
  split; [|discriminate]. intros H.
  pose proof (drop_while_length isspace s) as L.
  rewrite H in L. simpl in L. lia.
Qed.

Lemma join_chars (s : str) : join (map (fun c => [c]) s) = s.
Proof. induction s as [|c s IH]; simpl; [reflexivity | now rewrite IH]. Qed.

Lemma take_while_lstrip (s : str) : take_while isspace s ++ lstrip s = s.
Proof. apply take_drop_while. Qed.

(** ** The tokenizer *)

(** C1, as the spec states it, fails in word mode on a message that begins
    with white space: the scan never reports the leading run. *)
Lemma tokenize_join_leading_space :
  join (tokenize (lit " hi") "word") <> lit " hi".
Proof. vm_compute. discriminate. Qed.

(** C1 (amended): in char mode the tokens of every message join to the
    message; in word mode they do so exactly when the message does not
    begin with white space. *)
Theorem tokenize_join (message : str) :
  join (tokenize message "char") = message /\
  (join (tokenize message "word") = message
   <-> starts_with_space message = false).
Proof.
  split.
  - apply join_chars.
  - change (tokenize message "word") with (Re.findall Re.word_pattern message).
    rewrite findall_word_join. apply lstrip_fixed.
Qed.

(** C8: in word mode the tokens are consecutive pieces of the message, read
    from the left after the white space it may begin with, each made of
    one or more non-space characters and then zero or more space
    characters; in char mode there is one token of one code point for each
    code point of the message; and the two examples evaluate as stated. *)
Theorem tokenize_word_tokens (message : str) :
  Forall word_token (tokenize message "word") /\
  message = take_while isspace message ++ join (tokenize message "word") /\
  length (tokenize message "char") = length message /\
  (forall i c, message !! i = Some c -> tokenize message "char" !! i = Some [c]) /\
  tokenize (lit "hi there") "word" = [lit "hi "; lit "there"] /\
  tokenize (lit "hi") "char" = [lit "h"; lit "i"].
Proof.
  change (tokenize message "word") with (Re.findall Re.word_pattern message).
  change (tokenize message "char") with (map (fun c : char => [c]) message).
  repeat split.
  - apply findall_word_tokens.
  - rewrite findall_word_join. symmetry. apply take_while_lstrip.
  - apply length_map.
  - induction message as [|c0 m IH]; intros [|i] c H; simpl in *;
      try discriminate.
    + now injection H as ->.
    + now apply IH.
Qed.

(** ** Methods of the window, one by one *)

Ltac run_method :=
  unfold invoke, _tick, start_animation, _exit, _on_key_pressed,
    _schedule_exit_if_needed, _apply_reveal_position, _reserve_final_width,
    bind, get, update, emit, ret, result, after, effects, done,
    tick_timers, exit_timers;
  simpl.

Ltac split_ifs :=
  repeat match goal with
    | |- context [if ?c then _ else _] => destruct c eqn:?; simpl
    end.

Lemma bind_run {A B} (m : Method A) (k : A -> Method B) (self : MessageWindow) :
  bind m k self
  = (result (k (result (m self)) (after (m self))),
     after (k (result (m self)) (after (m self))),
     effects (m self) ++ effects (k (result (m self)) (after (m self)))).
Proof.
  unfold bind, result, after, effects.
  destruct (m self) as [[a s1] e1]. simpl.
  destruct (k a s1) as [[b s2] e2]. reflexivity.
Qed.

(** [_apply_reveal_position] touches the label only, and of the label
    not its text. *)
Lemma apply_reveal_position_label (env : Platform) (b : bool) (self : MessageWindow) :
  exists l : Gtk.Label,
    _apply_reveal_position env b self = (tt, with_label (fun _ => l) self, []) /\
    Gtk.text l = Gtk.text (label self) /\
    (b = true -> final_layout (args self) l).
Proof.
  unfold final_layout. run_method.
  destruct (String.eqb (reveal_position (args self)) "center") eqn:Ec; simpl.
  - assert (reveal_position (args self) = "center"%string) as -> by now apply String.eqb_eq.
    eexists; repeat split.
  - destruct (String.eqb (reveal_position (args self)) "left") eqn:El; simpl.
    + eexists; repeat split.
    + destruct b; simpl.
      * eexists; repeat split.
      * split_ifs; eexists; repeat split; discriminate.
Qed.

Lemma schedule_exit_run (self : MessageWindow) :
  _schedule_exit_if_needed self
  = if Qle_bool (exit_after (args self)) 0 || exit_scheduled self
    then (tt, self, [])
    else (tt, set_exit_scheduled true self,
          [timeout_add (py_int (exit_after (args self) * 1000)) cb_exit]).
Proof.
  run_method. split_ifs; reflexivity.
Qed.

(** A call of [_tick] before the last token is out. *)
Lemma tick_step (env : Platform) (self : MessageWindow) :
  index self < length (tokens self) ->
  let r := _tick env self in
  result r = negb (length (tokens self) <=? S (index self)) /\
  index (after r) = S (index self) /\
  current_text (after r)
  = current_text self ++ nth (index self) (tokens self) [] /\
  Gtk.text (label (after r)) = current_text (after r) /\
  tokens (after r) = tokens self /\
  args (after r) = args self /\
  effects r
  = (if result r || Qle_bool (exit_after (args self)) 0 || exit_scheduled self
     then []
     else [timeout_add (py_int (exit_after (args self) * 1000)) cb_exit]) /\
  (result r = true -> exit_scheduled (after r) = exit_scheduled self).
Proof.
  intros H. apply Nat.leb_gt in H. run_method. rewrite H. simpl.
  split_ifs; repeat split; simpl in *; congruence.
Qed.

(** A call of [_tick] when every token is out already. *)
Lemma tick_done (env : Platform) (self : MessageWindow) :
  length (tokens self) <= index self ->
  let r := _tick env self in
  result r = false /\
  index (after r) = index self /\
  current_text (after r) = current_text self /\
  Gtk.text (label (after r)) = Gtk.text (label self) /\
  tokens (after r) = tokens self /\
  args (after r) = args self /\
  tick_timers (effects r) = [].
Proof.
  intros H. apply Nat.leb_le in H. run_method. rewrite H. simpl.
  split_ifs; repeat split.
Qed.

(** The label while the timer runs, and when it stops. *)
Lemma tick_label (env : Platform) (self : MessageWindow) :
  let r := _tick env self in
  (result r = true ->
   Gtk.size_request (label (after r)) = Gtk.size_request (label self)) /\
  (result r = false -> final_layout (args self) (label (after r))).
Proof.
  unfold final_layout. run_method.
  destruct (String.eqb (reveal_position (args self)) "center") eqn:Ec; simpl.
  - assert (reveal_position (args self) = "center"%string) as -> by now apply String.eqb_eq.
    split_ifs; repeat split; intros; try discriminate; repeat split.
  - destruct (String.eqb (reveal_position (args self)) "left") eqn:El; simpl;
      split_ifs; repeat split; intros; try discriminate; repeat split.
Qed.

(** ** The reveal timer *)

Lemma result_bind {A B} (m : Method A) (k : A -> Method B) (self : MessageWindow) :
  result (bind m k self) = result (k (result (m self)) (after (m self))).
Proof. now rewrite bind_run. Qed.

Lemma after_bind {A B} (m : Method A) (k : A -> Method B) (self : MessageWindow) :
  after (bind m k self) = after (k (result (m self)) (after (m self))).
Proof. now rewrite bind_run. Qed.

Lemma effects_bind {A B} (m : Method A) (k : A -> Method B) (self : MessageWindow) :
  effects (bind m k self)
  = effects (m self) ++ effects (k (result (m self)) (after (m self))).
Proof. now rewrite bind_run. Qed.

Lemma result_ret {A} (a : A) (self : MessageWindow) : result (ret a self) = a.
Proof. reflexivity. Qed.

Lemma after_ret {A} (a : A) (self : MessageWindow) : after (ret a self) = self.
Proof. reflexivity. Qed.

Lemma effects_ret {A} (a : A) (self : MessageWindow) : effects (ret a self) = [].
Proof. reflexivity. Qed.

Lemma join_take_S (l : list str) (k : nat) :
  k < length l -> join (take (S k) l) = join (take k l) ++ nth k l [].
Proof.
  unfold join. revert k. induction l as [|t l IH]; intros k H; simpl in H; [lia|].
  destruct k as [|k]; simpl.
  - now rewrite app_nil_r.
  - rewrite <- app_assoc. f_equal. apply IH. lia.
Qed.

Lemma tick_revealed (env : Platform) (self : MessageWindow) :
  revealed self -> revealed (after (_tick env self)).
Proof.
  intros [Hi Ht]. unfold revealed.
  destruct (Nat.lt_ge_cases (index self) (length (tokens self))) as [H|H].
  - destruct (tick_step env self H) as (_ & -> & -> & _ & -> & _).
    rewrite join_take_S, Ht by exact H. split; [lia | reflexivity].
  - destruct (tick_done env self H) as (_ & -> & -> & _ & -> & _).
    split; assumption.
Qed.

Lemma ticks_front (env : Platform) (k : nat) (self : MessageWindow) :
  ticks env (S k) self = ticks env k (after (_tick env self)).
Proof. induction k as [|k IH]; [reflexivity|]. simpl in *. now rewrite IH. Qed.

Lemma ticks_tokens (env : Platform) (k : nat) (self : MessageWindow) :
  tokens (ticks env k self) = tokens self /\ args (ticks env k self) = args self.
Proof.
  induction k as [|k [IH1 IH2]]; simpl; [split; reflexivity|].
  destruct (Nat.lt_ge_cases (index (ticks env k self))
              (length (tokens (ticks env k self)))) as [H|H].
  - destruct (tick_step env _ H) as (_ & _ & _ & _ & -> & -> & _). now split.
  - destruct (tick_done env _ H) as (_ & _ & _ & _ & -> & -> & _). now split.
Qed.

Lemma ticks_revealed (env : Platform) (k : nat) (self : MessageWindow) :
  revealed self -> revealed (ticks env k self).
Proof.
  intros H. induction k as [|k IH]; simpl; [exact H|].
  now apply tick_revealed.
Qed.

Lemma ticks_index (env : Platform) (k : nat) (self : MessageWindow) :
  index self + k <= length (tokens self) ->
  index (ticks env k self) = index self + k.
Proof.
  induction k as [|k IH]; intros H; simpl; [lia|].
  destruct (ticks_tokens env k self) as [Ht _].
  destruct (tick_step env (ticks env k self)) as (_ & -> & _).
  - rewrite Ht, IH; lia.
  - rewrite IH; lia.
Qed.

(** The timer runs for exactly the tokens that are left, and with fewer
    periods than that it is still armed. *)
Lemma timeout_loop_tick (env : Platform) (fuel : nat) (self : MessageWindow) :
  index self < length (tokens self) ->
  let n := length (tokens self) - index self in
  let r := timeout_loop fuel (_tick env) self in
  (n <= fuel ->
   result r = Some n /\ after r = ticks env n self /\
   effects r
   = if Qle_bool (exit_after (args self)) 0 || exit_scheduled self then []
     else [timeout_add (py_int (exit_after (args self) * 1000)) cb_exit]) /\
  (fuel < n -> result r = None).
Proof.
  revert self. induction fuel as [|fuel IH]; intros self H n r.
  - split; [lia | reflexivity].
  - subst r. simpl timeout_loop.
    rewrite result_bind, after_bind, effects_bind.
    destruct (tick_step env self H) as (Hr & Hi & _ & _ & Ht & Ha & He & Hx).
    destruct (result (_tick env self)) eqn:Er.
    + symmetry in Hr. apply negb_true_iff, Nat.leb_gt in Hr.
      rewrite result_bind, after_bind, effects_bind.
      rewrite result_ret, after_ret, effects_ret, app_nil_r.
      specialize (IH (after (_tick env self))).
      rewrite Hi, Ht, Ha, Hx in IH by reflexivity.
      destruct (IH Hr) as [IH1 IH2].
      replace n with (S (length (tokens self) - S (index self))) by lia.
      split.
      * intros Hf. destruct IH1 as (-> & -> & ->); [lia|].
        rewrite ticks_front, He. now repeat split.
      * intros Hf. rewrite IH2 by lia. reflexivity.
    + symmetry in Hr. apply negb_false_iff, Nat.leb_le in Hr.
      assert (n = 1) as -> by lia.
      rewrite result_ret, after_ret, effects_ret, app_nil_r.
      split; [|lia]. intros _. rewrite He. now repeat split.
Qed.

Lemma start_animation_run (env : Platform) (self : MessageWindow) :
  start_animation env self
  = match tokens self with
    | [] => (_apply_reveal_position env true ;; _schedule_exit_if_needed) self
    | _ :: _ => (tt, self, [timeout_add (interval_ms (speed (args self))) cb_tick])
    end.
Proof.
  unfold start_animation. rewrite bind_run.
  unfold get, emit, result, after, effects. simpl.
  destruct (tokens self); [|reflexivity].
  match goal with
  | |- context [bind ?m ?k self] => destruct (bind m k self) as [[[] s] e]
  end.
  reflexivity.
Qed.

(** With no token, [start_animation] finishes on the spot. *)
Lemma start_animation_empty (env : Platform) (self : MessageWindow) :
  tokens self = [] ->
  let r := start_animation env self in
  tick_timers (effects r) = [] /\
  final_layout (args self) (label (after r)) /\
  index (after r) = index self /\
  current_text (after r) = current_text self /\
  Gtk.text (label (after r)) = Gtk.text (label self) /\
  tokens (after r) = [] /\
  args (after r) = args self /\
  effects r
  = if Qle_bool (exit_after (args self)) 0 || exit_scheduled self then []
    else [timeout_add (py_int (exit_after (args self) * 1000)) cb_exit].
Proof.
  intros H r. subst r. rewrite start_animation_run, H, bind_run.
  destruct (apply_reveal_position_label env true self) as (l & -> & Hl & Hf).
  specialize (Hf eq_refl).
  rewrite schedule_exit_run. unfold result, after, effects, tick_timers. simpl.
  destruct (Qle_bool (exit_after (args self)) 0 || exit_scheduled self);
    simpl; repeat split; try assumption; apply Hf.
Qed.

Lemma ticks_index_min (env : Platform) (k : nat) (self : MessageWindow) :
  index self <= length (tokens self) ->
  index (ticks env k self) = Nat.min (index self + k) (length (tokens self)).
Proof.
  intros Hi. induction k as [|k IH]; simpl; [lia|].
  destruct (ticks_tokens env k self) as [Ht _].
  destruct (Nat.lt_ge_cases (index (ticks env k self))
              (length (tokens (ticks env k self)))) as [H|H].
  - destruct (tick_step env _ H) as (_ & -> & _). rewrite Ht in H. lia.
  - destruct (tick_done env _ H) as (_ & -> & _). rewrite Ht in H. lia.
Qed.

Lemma start_animation_frame (env : Platform) (self : MessageWindow) :
  let r := start_animation env self in
  index (after r) = index self /\
  current_text (after r) = current_text self /\
  Gtk.text (label (after r)) = Gtk.text (label self) /\
  tokens (after r) = tokens self /\
  args (after r) = args self.
Proof.
  destruct (tokens self) eqn:E.
  - destruct (start_animation_empty env self E) as (_ & _ & ? & ? & ? & ? & ? & _).
    simpl. repeat split; congruence.
  - simpl. rewrite start_animation_run, E. now repeat split.
Qed.

Lemma reveal_run (env : Platform) (fuel : nat) (self : MessageWindow) :
  reveal env fuel self
  = match tokens self with
    | [] => (Some 0, after (start_animation env self),
             effects (start_animation env self))
    | _ :: _ =>
        (result (timeout_loop fuel (_tick env) self),
         after (timeout_loop fuel (_tick env) self),
         timeout_add (interval_ms (speed (args self))) cb_tick
           :: effects (timeout_loop fuel (_tick env) self))
    end.
Proof.
  unfold reveal. destruct (tokens self) eqn:E.
  - destruct (start_animation_empty env self E) as (_ & _ & _ & _ & _ & _ & _ & He).
    destruct (start_animation env self) as [[[] s1] e1].
    unfold effects in He. simpl in He. subst e1.
    now destruct (Qle_bool (exit_after (args self)) 0 || exit_scheduled self).
  - rewrite start_animation_run, E. simpl.
    now destruct (timeout_loop fuel (_tick env) self) as [[n s2] e2].
Qed.

Lemma new_window_fields (env : Platform) (a : Args) (monitor : option Monitor) :
  let self := new_MessageWindow env a monitor in
  args self = a /\
  tokens self = tokenize (message a) (mode a) /\
  idle self /\
  destroyed self = false /\
  layer_shell_enabled self
  = match monitor with
    | Some mon => layer_shell env && is_layer_window env mon
    | None => false
    end.
Proof.
  unfold idle, new_MessageWindow, __init__, _build_ui, _setup_layer_shell.
  run_method.
  destruct monitor as [mon|];
    [destruct (layer_shell env); [destruct (is_layer_window env mon)|]|];
    simpl; split_ifs; repeat split.
Qed.

Lemma findall_word_all_space (s : str) :
  Forall (fun c => isspace c = true) s -> Re.findall Re.word_pattern s = [].
Proof.
  induction 1 as [|c s Hc _ IH]; [reflexivity|].
  now rewrite findall_word_space.
Qed.

(** With a period for every token, the run started by [start_animation]
    ends after as many calls of [_tick] as there are tokens. *)
Lemma reveal_enough_fuel (env : Platform) (self : MessageWindow) (fuel : nat) :
  index self = 0 -> length (tokens self) <= fuel ->
  result (reveal env fuel self) = Some (length (tokens self)) /\
  after (reveal env fuel self)
  = ticks env (length (tokens self)) (after (start_animation env self)).
Proof.
  intros Hi Hf. rewrite reveal_run.
  destruct (tokens self) eqn:E; [split; reflexivity|].
  rewrite start_animation_run, E.
  destruct (timeout_loop_tick env fuel self) as [(-> & -> & _) _];
    rewrite ?E, ?Hi; simpl in *; try lia.
  unfold result at 1, after at 1 3. simpl. split; do 2 f_equal; lia.
Qed.

(** An idle window without tokens is done when [start_animation]
    returns. *)
Lemma reveal_no_tokens (env : Platform) (self : MessageWindow) (fuel : nat) :
  idle self -> tokens self = [] ->
  let r := reveal env fuel self in
  r = (Some 0, after (start_animation env self), effects (start_animation env self)) /\
  tick_timers (effects r) = [] /\
  final_layout (args self) (label (after r)) /\
  done (after r) = true /\
  index (after r) = 0 /\
  current_text (after r) = [] /\
  Gtk.text (label (after r)) = [].
Proof.
  intros (Hi & Hc & Hl & _) Ht r. subst r. rewrite reveal_run, Ht.
  destruct (start_animation_empty env self Ht)
    as (E1 & E2 & E3 & E4 & E5 & E6 & _).
  unfold done. change (after (?a, ?s, ?e)) with s. change (effects (?a, ?s, ?e)) with e.
  rewrite E6, E3, E4, E5. repeat split; try assumption; apply E2.
Qed.

(** ** The reveal controller *)

(** C2: from an idle window with [N] tokens, the timer calls [_tick]
    exactly [N] times and then stops: with [N] periods or more the run
    ends after [N] calls in the done state with every token revealed, and
    with fewer periods the timer is still armed.  After [k] calls the index
    is [k] and the text revealed is the concatenation of the first [k]
    tokens; the call number [k + 1] returns [True] exactly when a token is
    left after it; the index never decreases and never exceeds [N]; and a
    call in the done state returns [False] and leaves index and text as
    they are. *)
Theorem reveal_ticks (env : Platform) (self : MessageWindow) (fuel : nat) :
  index self = 0 -> current_text self = [] ->
  let N := length (tokens self) in
  let started := after (start_animation env self) in
  let r := reveal env fuel self in
  (N <= fuel ->
   result r = Some N /\ after r = ticks env N started /\
   done (after r) = true /\ index (after r) = N /\
   current_text (after r) = join (tokens self)) /\
  (fuel < N -> result r = None) /\
  (forall k, k <= N ->
     index (ticks env k started) = k /\
     current_text (ticks env k started) = join (take k (tokens self))) /\
  (forall k, k < N ->
     result (_tick env (ticks env k started)) = negb (N <=? S k)) /\
  (forall k,
     index (ticks env k started) <= index (ticks env (S k) started) /\
     index (ticks env (S k) started) <= N) /\
  (forall k, N <= k ->
     result (_tick env (ticks env k started)) = false /\
     index (ticks env (S k) started) = N /\
     current_text (ticks env (S k) started) = join (tokens self)).
Proof.
  intros Hi Hc N started r.
  destruct (start_animation_frame env self) as (Si & Sc & _ & St & _).
  fold started in Si, Sc, St.
  assert (Hrev : revealed started).
  { unfold revealed. rewrite Si, Sc, Hi, Hc. split; [lia | reflexivity]. }
  assert (Hidx : forall k, index (ticks env k started) = Nat.min k N).
  { intros k. rewrite ticks_index_min, Si, Hi, St; [reflexivity | lia]. }
  assert (Htxt : forall k, current_text (ticks env k started)
                           = join (take (Nat.min k N) (tokens self))).
  { intros k. destruct (ticks_revealed env k started Hrev) as [_ ->].
    destruct (ticks_tokens env k started) as [-> _]. now rewrite Hidx, St. }
  assert (Hall : join (take N (tokens self)) = join (tokens self)).
  { unfold N. now rewrite firstn_all. }
  assert (Hrun : N <= fuel -> result r = Some N /\ after r = ticks env N started)
    by (intros Hf; now apply reveal_enough_fuel).
  split; [|split; [|split; [|split; [|split]]]].
  - intros Hf. destruct (Hrun Hf) as [Hr Ha]. rewrite Ha.
    split; [exact Hr|]. split; [reflexivity|]. split; [|split].
    + unfold done. rewrite Hidx.
      destruct (ticks_tokens env N started) as [-> _]. rewrite St.
      apply Nat.leb_le. fold N. lia.
    + rewrite Hidx. lia.
    + rewrite Htxt, Nat.min_id. exact Hall.
  - intros Hf. subst r. rewrite reveal_run.
    destruct (tokens self) eqn:E; [simpl in *; lia|].
    destruct (timeout_loop_tick env fuel self) as [_ ->];
      rewrite ?E, ?Hi; simpl in *; try lia. reflexivity.
  - intros k Hk. split.
    + rewrite Hidx. lia.
    + rewrite Htxt. now replace (Nat.min k N) with k by lia.
  - intros k Hk. destruct (tick_step env (ticks env k started)) as (-> & _).
    + destruct (ticks_tokens env k started) as [-> _]. rewrite Hidx, St. fold N. lia.
    + destruct (ticks_tokens env k started) as [-> _].
      rewrite Hidx, St. fold N. now replace (Nat.min k N) with k by lia.
  - intros k. rewrite !Hidx. lia.
  - intros k Hk. split; [|split].
    + destruct (tick_done env (ticks env k started)) as (-> & _); [|reflexivity].
      destruct (ticks_tokens env k started) as [-> _]. rewrite Hidx, St. fold N. lia.
    + rewrite Hidx. lia.
    + rewrite Htxt. replace (Nat.min (S k) N) with N by lia. exact Hall.
Qed.

(** C7: an idle window without tokens is done as soon as
    [start_animation] returns: [_tick] is never called, no reveal timer is
    added, the label has its final layout, and nothing has been
    revealed. *)
Theorem start_animation_no_tokens (env : Platform) (self : MessageWindow) (fuel : nat) :
  idle self -> tokens self = [] ->
  let r := reveal env fuel self in
  r = (Some 0, after (start_animation env self), effects (start_animation env self)) /\
  tick_timers (effects r) = [] /\
  final_layout (args self) (label (after r)) /\
  done (after r) = true /\
  index (after r) = 0 /\
  current_text (after r) = [] /\
  Gtk.text (label (after r)) = [].
Proof. apply reveal_no_tokens. Qed.

(** With no token, [start_animation] sets the flag of the auto-close
    timer exactly when the delay is positive. *)
Lemma start_animation_empty_flag (env : Platform) (self : MessageWindow) :
  tokens self = [] ->
  exit_scheduled (after (start_animation env self))
  = exit_scheduled self || negb (Qle_bool (exit_after (args self)) 0).
Proof.
  intros H. rewrite start_animation_run, H, bind_run.
  destruct (apply_reveal_position_label env true self) as (l & -> & _).
  rewrite schedule_exit_run. unfold result, after, effects. simpl.
  destruct (Qle_bool (exit_after (args self)) 0) eqn:Eq;
    destruct (exit_scheduled self) eqn:Ex; simpl; rewrite ?Ex; reflexivity.
Qed.

(** C10: in word mode the tokens join to the message without the white
    space it begins with; for a message that is not empty and holds white
    space only there is no token, so that [start_animation] brings the
    window to its end at once: [_tick] is never called and no reveal timer
    is added, the label has its final layout and shows the empty text,
    and the auto-close timer is the one thing asked for, when the delay is
    positive. *)
Theorem word_mode_leading_space
    (env : Platform) (a : Args) (monitor : option Monitor) (fuel : nat) :
  mode a = "word"%string ->
  join (tokenize (message a) (mode a)) = lstrip (message a) /\
  (message a <> [] -> Forall (fun c => isspace c = true) (message a) ->
   let self := new_MessageWindow env a monitor in
   let r := reveal env fuel self in
   tokens self = [] /\
   result r = Some 0 /\
   tick_timers (effects r) = [] /\
   done (after r) = true /\
   current_text (after r) = [] /\
   Gtk.text (label (after r)) = [] /\
   final_layout a (label (after r)) /\
   exit_scheduled (after r) = negb (Qle_bool (exit_after a) 0) /\
   effects r
   = if Qle_bool (exit_after a) 0 then []
     else [timeout_add (py_int (exit_after a * 1000)) cb_exit]).
Proof.
  intros Hm. rewrite Hm.
  change (tokenize (message a) "word") with (Re.findall Re.word_pattern (message a)).
  split; [apply findall_word_join|].
  intros _ Hs self r.
  destruct (new_window_fields env a monitor) as (Ha & Ht & Hidle & _).
  fold self in Ha, Ht, Hidle. rewrite Hm in Ht.
  change (tokenize (message a) "word")
    with (Re.findall Re.word_pattern (message a)) in Ht.
  rewrite findall_word_all_space in Ht by exact Hs.
  destruct (reveal_no_tokens env self fuel Hidle Ht)
    as (E & H1 & H2 & H3 & _ & H4 & H5).
  fold r in E, H1, H2, H3, H4, H5. rewrite Ha in H2.
  destruct (start_animation_empty env self Ht) as (_ & _ & _ & _ & _ & _ & _ & He).
  pose proof (start_animation_empty_flag env self Ht) as Hf.
  destruct Hidle as (_ & _ & _ & Hx). rewrite Hx, Ha in He, Hf.
  rewrite orb_false_r in He. simpl in Hf.
  split; [exact Ht|]. split; [now rewrite E|].
  split; [exact H1|]. split; [exact H3|]. split; [exact H4|]. split; [exact H5|].
  split; [exact H2|]. rewrite E. split; [exact Hf | exact He].
Qed.

(** ** The period of the timer *)

Lemma py_max_spec (a b : Q) :
  (a <= py_max a b)%Q /\ (b <= py_max a b)%Q /\ (py_max a b = a \/ py_max a b = b).
Proof.
  unfold py_max. destruct (Qle_bool b a) eqn:E.
  - apply Qle_bool_iff in E. repeat split; [apply Qle_refl | exact E | now left].
  - assert (~ (b <= a)%Q) as H by (rewrite <- Qle_bool_iff; congruence).
    apply Qnot_le_lt in H.
    repeat split; [now apply Qlt_le_weak | apply Qle_refl | now right].
Qed.

(** [int] of a float that is not negative is its floor. *)
Lemma py_int_floor (x : Q) : (0 <= x)%Q -> py_int x = Qfloor x.
Proof.
  destruct x as [n d]. unfold Qle, py_int, Qfloor. simpl. intros H.
  apply Z.quot_div_nonneg; lia.
Qed.

Lemma quotient_bounds (rate : Q) :
  (1 # 100 <= rate)%Q -> (0 < 1000 / rate)%Q /\ (1000 / rate <= 100000)%Q.
Proof.
  intros H. assert (0 < rate)%Q as Hp by (eapply Qlt_le_trans; [|exact H]; reflexivity).
  split.
  - apply Qlt_shift_div_l; [exact Hp|]. rewrite Qmult_0_l. reflexivity.
  - apply Qle_shift_div_r; [exact Hp|].
    apply Qle_trans with (100000 * (1 # 100))%Q; [unfold Qle; simpl; lia|].
    apply Qmult_le_l; [reflexivity | exact H].
Qed.

(** C3, as the spec states it, fails at the default speed: [int]
    truncates 66.67 to 66 where rounding gives 67. *)
Lemma interval_ms_not_rounded :
  interval_ms 15 = 66%Z /\ spec_interval_ms 15 = 67%Z /\
  interval_ms 15 <> spec_interval_ms 15.
Proof. vm_compute. repeat split; discriminate. Qed.

(** C3 (amended): for every speed the period in milliseconds is
    [max(1, floor(1000 / max(speed, 0.01)))] in exact arithmetic: the
    quotient is truncated, not rounded.  The rate is the larger of the
    speed and 0.01, so the period lies between 1 and 100000, and a speed
    of 0.01 or less, zero and negative ones too, gives 100000. *)
Theorem interval_ms_truncates (speed : Q) :
  let rate := py_max speed (1 # 100) in
  (speed <= rate)%Q /\ (1 # 100 <= rate)%Q /\
  (rate = speed \/ rate = (1 # 100)%Q) /\
  interval_ms speed = Z.max 1 (Qfloor (1000 / rate)) /\
  (1 <= interval_ms speed <= 100000)%Z /\
  ((speed <= 1 # 100)%Q -> interval_ms speed = 100000%Z).
Proof.
  intros rate. destruct (py_max_spec speed (1 # 100)) as (H1 & H2 & H3).
  fold rate in H1, H2, H3.
  destruct (quotient_bounds rate H2) as [Hpos Hle].
  assert (E : interval_ms speed = Z.max 1 (Qfloor (1000 / rate))).
  { unfold interval_ms. fold rate. now rewrite py_int_floor by now apply Qlt_le_weak. }
  split; [exact H1|]. split; [exact H2|]. split; [exact H3|]. split; [exact E|].
  split.
  - rewrite E. apply Qfloor_resp_le in Hle.
    change (Qfloor 100000) with 100000%Z in Hle. lia.
  - intros Hs. rewrite E.
    assert (Hr : (rate == 1 # 100)%Q) by (apply Qle_antisym; [|exact H2];
      destruct H3 as [-> | ->]; [exact Hs | apply Qle_refl]).
    assert (Hq : (1000 / rate == 100000)%Q) by (rewrite Hr; reflexivity).
    rewrite (Qfloor_comp _ _ Hq). reflexivity.
Qed.

Lemma interval_ms_truncates_witness :
  (0 <= 1 # 100)%Q /\ interval_ms 0 = 100000%Z.
Proof.
  split; [discriminate|].
  apply (interval_ms_truncates 0). discriminate.
Defined.

(** ** The auto-close timer *)

Lemma invoke_exit_outcome (env : Platform) (c : Call) (self : MessageWindow) :
  exit_outcome self (invoke env c self).
Proof.
  unfold exit_outcome. destruct c; run_method.
  - destruct (tokens self); simpl; split_ifs; split; auto;
      match goal with
      | H : _ || _ = false |- _ => apply orb_false_elim in H; destruct H
      end; right; auto.
  - split_ifs; split; auto;
      match goal with
      | H : _ || _ = false |- _ => apply orb_false_elim in H; destruct H
      end; right; auto.
  - split_ifs; split; auto.
  - split_ifs; split; auto.
Qed.

Lemma run_calls_exit_outcome (env : Platform) (cs : list Call) (self : MessageWindow) :
  exit_outcome self (run_calls env cs self).
Proof.
  revert self. induction cs as [|c cs IH]; intros self.
  - unfold exit_outcome. simpl. split; [reflexivity | left; split; reflexivity].
  - simpl run_calls. unfold exit_outcome.
    rewrite after_bind, effects_bind.
    destruct (invoke_exit_outcome env c self) as [Ha1 H1].
    specialize (IH (after (invoke env c self))).
    destruct IH as [Ha2 H2]. rewrite Ha1 in H2.
    split; [congruence|].
    unfold exit_timers in *. rewrite List.filter_app.
    destruct H1 as [[E1 S1] | (E1 & Q1 & S1 & T1)];
      destruct H2 as [[E2 S2] | (E2 & Q2 & S2 & T2)];
      rewrite E1, E2; simpl.
    + left. split; congruence.
    + right. repeat split; congruence.
    + right. repeat split; congruence.
    + congruence.
Qed.

Lemma exit_delay_floor (x : Q) :
  (0 < x)%Q ->
  (inject_Z (py_int (x * 1000)) <= x * 1000)%Q /\
  (x * 1000 < inject_Z (py_int (x * 1000) + 1))%Q.
Proof.
  intros H. rewrite py_int_floor.
  - split; [apply Qfloor_le | apply Qlt_floor].
  - apply Qmult_le_0_compat; [now apply Qlt_le_weak | discriminate].
Qed.

Lemma reveal_exit_timer (env : Platform) (self : MessageWindow) (fuel : nat) :
  index self = 0 -> length (tokens self) <= fuel ->
  exit_timers (effects (reveal env fuel self))
  = if Qle_bool (exit_after (args self)) 0 || exit_scheduled self then []
    else [timeout_add (py_int (exit_after (args self) * 1000)) cb_exit].
Proof.
  intros Hi Hf. rewrite reveal_run. destruct (tokens self) eqn:E.
  - destruct (start_animation_empty env self E) as (_ & _ & _ & _ & _ & _ & _ & He).
    change (effects (?a, ?s, ?e)) with e. rewrite He.
    now destruct (Qle_bool (exit_after (args self)) 0 || exit_scheduled self).
  - destruct (timeout_loop_tick env fuel self) as [(_ & _ & He) _];
      rewrite ?E, ?Hi; simpl in *; try lia.
    change (effects (?a, ?s, ?e)) with e. unfold exit_timers. simpl. rewrite He.
    now destruct (Qle_bool (exit_after (args self)) 0 || exit_scheduled self).
Qed.

(** C6: whatever calls reach a window, in whatever state it is: with an
    [exit_after] of zero or less no auto-close timer is added; with the
    flag set none is added either; otherwise at most one is added, its
    callback is [_exit] and its delay is [exit_after] seconds in whole
    milliseconds, and once the flag is set no later call adds another.  An
    idle window that runs to the end adds exactly one when [exit_after] is
    positive.  [_exit] asks the application to quit and returns [False],
    so that it runs once. *)
Theorem exit_timer_at_most_once
    (env : Platform) (self : MessageWindow) (cs : list Call) (fuel : nat) :
  let r := run_calls env cs self in
  let ms := py_int (exit_after (args self) * 1000) in
  ((exit_after (args self) <= 0)%Q -> exit_timers (effects r) = []) /\
  (exit_scheduled self = true -> exit_timers (effects r) = []) /\
  ((0 < exit_after (args self))%Q ->
   length (exit_timers (effects r)) <= 1 /\
   Forall (fun e => e = timeout_add ms cb_exit) (exit_timers (effects r)) /\
   (inject_Z ms <= exit_after (args self) * 1000)%Q /\
   (exit_after (args self) * 1000 < inject_Z (ms + 1))%Q /\
   (exit_timers (effects r) <> [] ->
    forall cs', exit_timers (effects (run_calls env cs' (after r))) = []) /\
   (idle self -> length (tokens self) <= fuel ->
    exit_timers (effects (reveal env fuel self)) = [timeout_add ms cb_exit])) /\
  result (_exit self) = false /\
  (destroyed self = false -> effects (_exit self) = [app_quit]).
Proof.
  intros r ms.
  destruct (run_calls_exit_outcome env cs self) as [Ha H]. fold r in Ha, H.
  split; [|split; [|split; [|split]]].
  - intros Hle. apply Qle_bool_iff in Hle.
    destruct H as [[E _] | (_ & Q & _)]; [exact E | congruence].
  - intros Hs. destruct H as [[E _] | (_ & _ & S & _)]; [exact E | congruence].
  - intros Hpos.
    assert (Hq : Qle_bool (exit_after (args self)) 0 = false).
    { destruct (Qle_bool (exit_after (args self)) 0) eqn:E; [|reflexivity].
      apply Qle_bool_iff in E. exfalso. exact (Qlt_not_le _ _ Hpos E). }
    destruct (exit_delay_floor _ Hpos) as [B1 B2].
    split; [|split; [|split; [exact B1|split; [exact B2|split]]]].
    + destruct H as [[-> _] | (-> & _)]; simpl; lia.
    + destruct H as [[-> _] | (-> & _)]; repeat constructor.
    + intros Hne cs'.
      destruct H as [[E _] | (_ & _ & _ & T)]; [congruence|].
      destruct (run_calls_exit_outcome env cs' (after r)) as [_ H'].
      destruct H' as [[E' _] | (_ & _ & S' & _)]; [exact E' | congruence].
    + intros (Hi & _ & _ & Hx) Hf.
      rewrite reveal_exit_timer, Hq, Hx by assumption. reflexivity.
  - run_method. now destruct (has_application self).
  - intros Hd. run_method. unfold has_application. now rewrite Hd.
Qed.

(** ** The width reserved for the label *)

Lemma new_window_size (env : Platform) (a : Args) (monitor : option Monitor) :
  Gtk.size_request (label (new_MessageWindow env a monitor))
  = if String.eqb (reveal_position a) "center" || String.eqb (reveal_position a) "left"
    then (-1, -1)%Z
    else if (0 <? pixel_width env (message a))%Z
         then (pixel_width env (message a), -1)%Z
         else (-1, -1)%Z.
Proof.
  unfold new_MessageWindow, __init__, _build_ui, _setup_layer_shell.
  run_method.
  destruct monitor as [mon|];
    [destruct (layer_shell env); [destruct (is_layer_window env mon)|]|];
    simpl; split_ifs; reflexivity.
Qed.

(** The calls of [_tick] that leave a token to come do not touch the size
    request. *)
Lemma ticks_size (env : Platform) (k : nat) (self : MessageWindow) :
  index self + k < length (tokens self) ->
  Gtk.size_request (label (ticks env k self)) = Gtk.size_request (label self).
Proof.
  induction k as [|k IH]; intros H; [reflexivity|].
  simpl. rewrite <- IH by lia.
  destruct (ticks_tokens env k self) as [Ht _].
  assert (Hi : index (ticks env k self) = index self + k) by (apply ticks_index; lia).
  apply tick_label.
  destruct (tick_step env (ticks env k self)) as (-> & _).
  - rewrite Ht, Hi. lia.
  - rewrite Ht, Hi. apply negb_true_iff, Nat.leb_gt. lia.
Qed.

(** The call of [_tick] that reveals the last token applies the final
    layout. *)
Lemma ticks_final (env : Platform) (self : MessageWindow) :
  index self = 0 -> tokens self <> [] ->
  final_layout (args self) (label (ticks env (length (tokens self)) self)).
Proof.
  intros Hi Hne.
  destruct (length (tokens self)) as [|n] eqn:En;
    [destruct (tokens self); [congruence | discriminate]|].
  simpl. destruct (ticks_tokens env n self) as [Ht Ha].
  assert (Hn : index (ticks env n self) = n) by (rewrite ticks_index; lia).
  rewrite <- Ha. apply tick_label.
  destruct (tick_step env (ticks env n self)) as (-> & _).
  - rewrite Ht, Hn. lia.
  - rewrite Ht, Hn, En. apply negb_false_iff, Nat.leb_le. lia.
Qed.

Lemma reveal_final (env : Platform) (self : MessageWindow) (fuel : nat) :
  idle self -> length (tokens self) <= fuel ->
  final_layout (args self) (label (after (reveal env fuel self))).
Proof.
  intros Hidle Hf. destruct (tokens self) eqn:E.
  - now apply reveal_no_tokens.
  - destruct Hidle as (Hi & _).
    destruct (reveal_enough_fuel env self fuel Hi) as [_ ->]; [now rewrite E|].
    assert (Hst : after (start_animation env self) = self)
      by (rewrite start_animation_run, E; reflexivity).
    rewrite Hst. apply ticks_final; [exact Hi | congruence].
Qed.

Lemma invoke_unreserved (env : Platform) (c : Call) (self : MessageWindow) :
  reveal_position (args self) = "center"%string
  \/ reveal_position (args self) = "left"%string ->
  Gtk.size_request (label self) = (-1, -1)%Z ->
  args (after (invoke env c self)) = args self /\
  Gtk.size_request (label (after (invoke env c self))) = (-1, -1)%Z.
Proof.
  intros Hm Hs.
  destruct c; run_method; try destruct (tokens self); simpl;
    destruct Hm as [Hm | Hm]; rewrite ?Hm; simpl; split_ifs; split; auto.
Qed.

Lemma run_calls_unreserved (env : Platform) (cs : list Call) (self : MessageWindow) :
  reveal_position (args self) = "center"%string
  \/ reveal_position (args self) = "left"%string ->
  Gtk.size_request (label self) = (-1, -1)%Z ->
  Gtk.size_request (label (after (run_calls env cs self))) = (-1, -1)%Z.
Proof.
  revert self. induction cs as [|c cs IH]; intros self Hm Hs; [exact Hs|].
  simpl run_calls. rewrite after_bind.
  destruct (invoke_unreserved env c self Hm Hs) as [Ha Hs'].
  apply IH; [now rewrite Ha | exact Hs'].
Qed.

(** C9, as the spec states it, fails for a message that Pango measures
    as zero pixels wide: [_reserve_final_width] then requests nothing, and
    the size request of the animating label is the unset one, not the
    measured width. *)
Lemma zero_width_not_reserved :
  reveal_position (args zero_width_window) = "left-to-center"%string /\
  done zero_width_animating = false /\
  pixel_width narrow_platform (message zero_width_args) = 0%Z /\
  Gtk.size_request (label zero_width_animating) = (-1, -1)%Z /\
  fst (Gtk.size_request (label zero_width_animating))
  <> pixel_width narrow_platform (message zero_width_args).
Proof. vm_compute. repeat split; discriminate. Qed.

(** C9 (amended): under [left-to-center], while tokens are still to come,
    the label requests the width measured for the whole message whenever
    that width is positive, and requests nothing when it is not; once the
    window is done the request is cleared and the label has its final
    layout.  Under [center] and [left] the label requests no size in any
    state that calls can lead to. *)
Theorem reveal_position_width
    (env : Platform) (a : Args) (monitor : option Monitor) :
  let self := new_MessageWindow env a monitor in
  let N := length (tokens self) in
  let started := after (start_animation env self) in
  let width := pixel_width env (message a) in
  (reveal_position a = "left-to-center"%string ->
   (forall k, k < N ->
      Gtk.size_request (label (ticks env k started))
      = if (0 <? width)%Z then (width, -1)%Z else (-1, -1)%Z) /\
   (forall fuel, N <= fuel ->
      Gtk.size_request (label (after (reveal env fuel self))) = (-1, -1)%Z /\
      final_layout a (label (after (reveal env fuel self))))) /\
  (reveal_position a = "center"%string \/ reveal_position a = "left"%string ->
   forall cs,
     Gtk.size_request (label (after (run_calls env cs self))) = (-1, -1)%Z).
Proof.
  intros self N started width.
  destruct (new_window_fields env a monitor) as (Ha & _ & Hidle & _).
  fold self in Ha, Hidle.
  pose proof (new_window_size env a monitor) as Hs. fold self width in Hs.
  split.
  - intros Hm. rewrite Hm in Hs. simpl in Hs. split.
    + intros k Hk. unfold started. rewrite start_animation_run.
      destruct (tokens self) eqn:E;
        [unfold N in Hk; rewrite ?E in Hk; simpl in Hk; lia|].
      change (after (?a, ?s, ?e)) with s. rewrite <- Hs.
      apply ticks_size. destruct Hidle as (-> & _). rewrite E. exact Hk.
    + intros fuel Hf.
      pose proof (reveal_final env self fuel Hidle Hf) as F. rewrite Ha in F.
      split; [apply F | exact F].
  - intros Hm cs. apply run_calls_unreserved.
    + now rewrite Ha.
    + rewrite Hs. now destruct Hm as [-> | ->].
Qed.

(** ** The windows of the application *)

Lemma new_window_unanchored (env : Platform) (a : Args) :
  let self := new_MessageWindow env a None in
  layer_shell_enabled self = false /\ surface self = None /\ destroyed self = false.
Proof.
  unfold new_MessageWindow, __init__, _build_ui. run_method.
  split_ifs; repeat split.
Qed.

(** Destroying the windows named in [ids]: the named ones end destroyed,
    the others are as they were, and nothing else in the world changes. *)
Lemma destroy_all (ids : list nat) (w : World) :
  let w' := foldl (fun w old_window => destroy_window old_window w) w ids in
  app w' = app w /\ sources w' = sources w /\
  length (heap w') = length (heap w) /\
  (forall i, i ∉ ids -> heap w' !! i = heap w !! i) /\
  (forall i s', heap w' !! i = Some s' ->
     (i ∈ ids -> destroyed s' = true) /\
     (forall s, heap w !! i = Some s -> destroyed s = true -> destroyed s' = true)).
Proof.
  revert w. induction ids as [|id ids IH]; intros w; simpl.
  - repeat split; try reflexivity.
    + intros Hin. inversion Hin.
    + intros s Hs. congruence.
  - specialize (IH (destroy_window id w)). simpl in IH.
    destruct IH as (Ha & Hsrc & Hlen & Hout & Hin).
    split; [exact Ha|]. split; [exact Hsrc|].
    split; [now rewrite Hlen, length_alter|]. split.
    + intros i Hi. apply not_elem_of_cons in Hi as [Hne Hi].
      rewrite Hout by exact Hi. now apply list_lookup_alter_ne.
    + intros i s' Hs'. destruct (Hin i s' Hs') as [H1 H2].
      destruct (decide (i = id)) as [->|Hne].
      * assert (Hd : forall s, heap w !! id = Some s -> destroyed s' = true).
        { intros s Hs. apply (H2 (destroy s)); [|reflexivity].
          now rewrite list_lookup_alter_eq, Hs. }
        split; [|now intros s Hs _; apply (Hd s)].
        intros _. destruct (heap w !! id) as [s|] eqn:Es; [now apply (Hd s)|].
        destruct (decide (id ∈ ids)) as [Hi|Hi]; [now apply H1|].
        rewrite Hout, list_lookup_alter_eq, Es in Hs' by exact Hi. discriminate.
      * split.
        -- intros Hi. apply elem_of_cons in Hi as [Hi|Hi]; [congruence | now apply H1].
        -- intros s Hs. apply H2. now rewrite list_lookup_alter_ne.
Qed.

(** The loop over the monitors when anchoring fails for one of them.
    [base] is the number of windows that existed before the pass; the
    windows of the pass so far are the ones that [self.windows] holds. *)
Lemma build_each_fails (env : Platform) (monitors : list (option Monitor))
      (w : World) (base : nat) :
  layer_shell env = true ->
  (exists mon, In (Some mon) monitors /\ is_layer_window env mon = false) ->
  base <= length (heap w) ->
  windows (app w) = seq base (length (heap w) - base) ->
  let w' := build_each env monitors w in
  windows (app w') = [] /\
  app_args (app w') = app_args (app w) /\
  animation_started (app w') = animation_started (app w) /\
  sources w' = sources w /\
  length (heap w) < length (heap w') /\
  (forall i, i < base -> heap w' !! i = heap w !! i) /\
  (forall i s, base <= i -> heap w' !! i = Some s -> destroyed s = true).
Proof.
  intros Hls. revert w.
  induction monitors as [|[mon|] rest IH]; intros w (bad & Hin & Hbad) Hb Hw.
  - destruct Hin.
  - destruct (new_window_fields env (app_args (app w)) (Some mon))
      as (_ & _ & _ & Hd & Hl).
    rewrite Hls in Hl. simpl in Hl. simpl build_each.
    set (self := new_MessageWindow env (app_args (app w)) (Some mon)) in *.
    rewrite Hl. destruct (is_layer_window env mon) eqn:Eok; simpl negb; cbv iota.
    + (* the window is anchored: the loop goes on *)
      set (w2 := set_windows _ _).
      destruct (IH w2) as (I1 & I2 & I3 & I4 & I5 & I6 & I7).
      * destruct Hin as [Hin|Hin]; [|now exists bad].
        injection Hin as ->. congruence.
      * subst w2. simpl. rewrite length_app. simpl. lia.
      * subst w2. simpl. rewrite Hw, length_app. simpl.
        replace (length (heap w) + 1 - base) with (S (length (heap w) - base)) by lia.
        rewrite seq_S. do 2 f_equal. lia.
      * subst w2. simpl in *. rewrite length_app in I5. simpl in I5.
        repeat split; try assumption; [lia|].
        intros i Hi. rewrite I6 by exact Hi. apply lookup_app_l. lia.
    + (* the window is not a layer window: everything is taken down *)
      set (w2 := destroy_window _ _).
      destruct (destroy_all (windows (app w2)) w2) as (D1 & D2 & D3 & D4 & D5).
      set (w3 := foldl _ w2 _) in *.
      assert (Hw2 : windows (app w2) = seq base (length (heap w) - base)) by exact Hw.
      assert (Hh2 : heap w2 = alter destroy (length (heap w)) (heap w ++ [self]))
        by reflexivity.
      simpl. rewrite D1, D2, D3, Hh2, length_alter, length_app. simpl.
      repeat split; try reflexivity; [lia | |].
      * intros i Hi. rewrite D4, Hh2.
        -- rewrite list_lookup_alter_ne by lia. apply lookup_app_l. lia.
        -- rewrite Hw2, elem_of_seq. lia.
      * intros i s Hi Hs. destruct (D5 i s Hs) as [Hin' Hmono].
        destruct (decide (i < length (heap w))) as [Hlt|Hge].
        -- apply Hin'. rewrite Hw2, elem_of_seq. lia.
        -- assert (i = length (heap w)) as ->.
           { apply lookup_lt_Some in Hs. rewrite D3, Hh2, length_alter, length_app in Hs.
             simpl in Hs. lia. }
           apply (Hmono (destroy self)); [|reflexivity].
           rewrite Hh2, list_lookup_alter_eq, list_lookup_middle by reflexivity.
           reflexivity.
  - simpl build_each. apply IH; try assumption.
    destruct Hin as [Hin|Hin]; [discriminate | now exists bad].
Qed.

(** C4: when every monitor is asked for, layer shell is there, and
    anchoring fails for one of the monitors listed, [_build_windows] ends
    with one window in [self.windows]: a window that is not anchored and
    not destroyed, made after the pass.  Every other window made in the
    pass, the anchored ones before the failure and the one that failed, is
    destroyed, and the windows that existed before are as they were. *)
Theorem build_windows_all_or_nothing
    (env : Platform) (w : World) (monitors : list (option Monitor)) :
  windows (app w) = [] ->
  all_monitors (app_args (app w)) = true ->
  layer_shell env = true ->
  display env = Some monitors ->
  (exists mon, In (Some mon) monitors /\ is_layer_window env mon = false) ->
  let w' := _build_windows env w in
  exists (fallback : nat) (self : MessageWindow),
    windows (app w') = [fallback] /\
    heap w' !! fallback = Some self /\
    layer_shell_enabled self = false /\ surface self = None /\
    destroyed self = false /\
    S (length (heap w)) < length (heap w') /\
    (forall i s, length (heap w) <= i -> i <> fallback ->
       heap w' !! i = Some s -> destroyed s = true) /\
    (forall i, i < length (heap w) -> heap w' !! i = heap w !! i).
Proof.
  intros Hw Hall Hls Hd Hbad w'. subst w'.
  unfold _build_windows. rewrite Hw, Hall, Hls, Hd. simpl.
  destruct (build_each_fails env monitors w (length (heap w)) Hls Hbad)
    as (B1 & B2 & _ & _ & B5 & B6 & B7).
  { lia. } { now rewrite Hw, Nat.sub_diag. }
  set (w2 := build_each env monitors w) in *. rewrite B1. simpl.
  destruct (new_window_unanchored env (app_args (app w))) as (U1 & U2 & U3).
  exists (length (heap w2)), (new_MessageWindow env (app_args (app w)) None).
  repeat split; try assumption.
  - now apply list_lookup_middle.
  - rewrite length_app. simpl. lia.
  - intros i s Hi Hne Hs. apply (B7 i s Hi).
    rewrite lookup_app_l in Hs; [exact Hs|].
    apply lookup_lt_Some in Hs. rewrite length_app in Hs. simpl in Hs. lia.
  - intros i Hi. rewrite lookup_app_l by lia. now apply B6.
Qed.

(** ** Activation *)

Lemma perform_app (id : nat) (w : World) (e : Effect) : app (perform id w e) = app w.
Proof. now destruct e. Qed.

Lemma call_app {A} (id : nat) (m : Method A) (w : World) :
  app (snd (call id m w)) = app w.
Proof.
  unfold call. destruct (heap w !! id) as [self|]; [|reflexivity].
  destruct (m self) as [[a self'] es]. simpl.
  set (w0 := set_heap _ w). change (app w) with (app w0). clearbody w0.
  revert w0. induction es as [|e es IH]; intros w0; simpl; [reflexivity|].
  now rewrite IH, perform_app.
Qed.

Lemma present_all (ids : list nat) (w : World) :
  foldl (fun w window => present window w) w ids
  = {| app := app w; heap := heap w; sources := sources w;
       presented := presented w ++ ids; stderr := stderr w; quit := quit w |}.
Proof.
  revert w. induction ids as [|id ids IH]; intros w; simpl.
  - rewrite app_nil_r. now destruct w.
  - rewrite IH. simpl. now rewrite <- app_assoc.
Qed.

Lemma start_all_app (env : Platform) (ids : list nat) (w : World) :
  app (foldl (fun w window => snd (call window (start_animation env) w)) w ids)
  = app w.
Proof.
  revert w. induction ids as [|id ids IH]; intros w; simpl; [reflexivity|].
  now rewrite IH, call_app.
Qed.

Lemma build_windows_nonempty (env : Platform) (w : World) :
  windows (app (_build_windows env w)) <> [].
Proof.
  unfold _build_windows. destruct (windows (app w)) eqn:E; [|now rewrite E].
  match goal with
  | |- context [match windows (app ?w2) with _ => _ end] =>
      destruct (windows (app w2)) eqn:E2
  end.
  - simpl. rewrite E2. discriminate.
  - now rewrite E2.
Qed.

Lemma do_activate_activated (env : Platform) (w : World) : activated (do_activate env w).
Proof.
  unfold activated, do_activate. rewrite present_all. simpl.
  pose proof (build_windows_nonempty env w) as H.
  destruct (animation_started (app (_build_windows env w))) eqn:E; simpl.
  - now split.
  - rewrite start_all_app. simpl. now split.
Qed.

Lemma step_activated (env : Platform) (w : World) (ev : Event) :
  activated w -> activated (step env w ev).
Proof.
  intros H. destruct ev as [|i|window keyval]; simpl.
  - apply do_activate_activated.
  - unfold dispatch. destruct (sources w !! i) as [src|]; [|exact H].
    pose proof (call_app (owner src) (method_of env (callback src)) w) as Hc.
    destruct (call (owner src) (method_of env (callback src)) w) as [again w1].
    simpl in Hc. unfold activated in *.
    destruct again as [[|]|]; simpl; now rewrite ?Hc.
  - unfold activated in *. now rewrite call_app.
Qed.

Lemma run_activated (env : Platform) (evs : list Event) (w : World) :
  activated w -> activated (run env evs w).
Proof.
  unfold run. revert w. induction evs as [|ev evs IH]; intros w H; simpl; [exact H|].
  apply IH. now apply step_activated.
Qed.

(** Activating an application that is activated presents its windows
    again and does nothing else. *)
Lemma do_activate_again (env : Platform) (w : World) :
  activated w ->
  do_activate env w
  = {| app := app w; heap := heap w; sources := sources w;
       presented := presented w ++ windows (app w); stderr := stderr w;
       quit := quit w |}.
Proof.
  intros [Hw Hs]. unfold do_activate.
  assert (Hb : _build_windows env w = w).
  { unfold _build_windows. destruct (windows (app w)); [congruence | reflexivity]. }
  rewrite Hb, present_all. simpl. now rewrite Hs.
Qed.

(** C5: after the first activation, and whatever timers fire, keys are
    pressed or further activations happen in between, one more activation
    leaves the list of windows, every window object and the timeout
    sources as they are: no window is made and [start_animation] is not
    called.  It only presents the windows once more. *)
Theorem do_activate_idempotent (env : Platform) (w : World) (evs : list Event) :
  let w1 := run env evs (do_activate env w) in
  let w2 := do_activate env w1 in
  windows (app w2) = windows (app w1) /\
  length (heap w2) = length (heap w1) /\
  heap w2 = heap w1 /\
  sources w2 = sources w1 /\
  animation_started (app w2) = true /\
  app w2 = app w1 /\
  stderr w2 = stderr w1 /\
  quit w2 = quit w1 /\
  presented w2 = presented w1 ++ windows (app w1).
Proof.
  intros w1 w2.
  assert (H : activated w1) by apply run_activated, do_activate_activated.
  subst w2. rewrite (do_activate_again env w1 H). simpl.
  destruct H as [_ Hs]. now repeat split.
Qed.

(** * Runs on concrete inputs *)

Example tokenize_word_spaces :
  tokenize (lit "  a  b c  ") "word" = [lit "a  "; lit "b "; lit "c  "].
Proof. reflexivity. Qed.

Example tokenize_word_nbsp :
  tokenize [0x61; 0xA0; 0x62; 0x200B; 0x20; 0x63]%N "word"
  = [[0x61; 0xA0]; [0x62; 0x200B; 0x20]; [0x63]]%N.
Proof. reflexivity. Qed.

(** [re.findall("a*", "baac")] is [['', 'aa', '', '']]. *)
Example findall_empty_matches :
  Re.findall [Re.Item (N.eqb 97) Re.ZeroOrMore] (lit "baac") = [ []; lit "aa"; []; [] ].
Proof. reflexivity. Qed.

(** [re.findall("a*b", "aab ab b")] is [['aab', 'ab', 'b']]. *)
Example findall_backtracking :
  Re.findall [Re.Item (N.eqb 97) Re.ZeroOrMore; Re.Item (N.eqb 98) Re.Once]
    (lit "aab ab b")
  = [lit "aab"; lit "ab"; lit "b"].
Proof. reflexivity. Qed.

Example interval_ms_default : interval_ms 15 = 66%Z.
Proof. reflexivity. Qed.

Example interval_ms_fast : interval_ms 5000 = 1%Z.
Proof. reflexivity. Qed.

Example interval_ms_negative : interval_ms (-3) = 100000%Z.
Proof. reflexivity. Qed.

(** "hi there" word by word: two calls of [_tick], then the auto-close
    timer of one second. *)
Example reveal_hi_there :
  let r := reveal demo_platform 10
             (new_MessageWindow demo_platform (demo_args "hi there" "word" "left-to-center") None) in
  result r = Some 2 /\
  current_text (after r) = lit "hi there" /\
  Gtk.text (label (after r)) = lit "hi there" /\
  effects r = [timeout_add 66 cb_tick; timeout_add 1000 cb_exit].
Proof. vm_compute. repeat split. Qed.

(** The first activation on the three monitors: the window of the first
    monitor and the one that failed are destroyed, and the window list
    holds the fallback alone. *)
Example activate_three_monitors :
  let w := do_activate demo_platform
             (new_MessageApp (demo_args "hi" "char" "left-to-center")) in
  windows (app w) = [2] /\
  map destroyed (heap w) = [true; true; false] /\
  map layer_shell_enabled (heap w) = [true; false; false] /\
  sources w = [{| owner := 2; period := 66; callback := cb_tick |}] /\
  presented w = [2] /\
  stderr w = [warn_init_failed].
Proof. vm_compute. repeat split. Qed.

(** The timer of that window fires twice and is gone; the auto-close
    timer is left, and when it fires the application quits. *)
Example activate_then_run :
  let w := run demo_platform [ev_timeout 0; ev_timeout 0; ev_activate]
             (do_activate demo_platform
                (new_MessageApp (demo_args "hi" "char" "left-to-center"))) in
  windows (app w) = [2] /\
  length (heap w) = 3 /\
  sources w = [{| owner := 2; period := 1000; callback := cb_exit |}] /\
  quit w = false /\
  quit (run demo_platform [ev_timeout 0] w) = true /\
  sources (run demo_platform [ev_timeout 0] w) = [].
Proof. vm_compute. repeat split. Qed.

(** * The theorems at concrete inputs *)

Lemma reveal_ticks_witness :
  index (demo_window "hi there" "word" "left-to-center") = 0 /\
  current_text (demo_window "hi there" "word" "left-to-center") = [] /\
  result (reveal demo_platform 5 (demo_window "hi there" "word" "left-to-center"))
  = Some 2 /\
  result (reveal demo_platform 1 (demo_window "hi there" "word" "left-to-center"))
  = None.
Proof.
  set (self := demo_window "hi there" "word" "left-to-center").
  split; [reflexivity|]. split; [reflexivity|]. split.
  - apply (reveal_ticks demo_platform self 5 eq_refl eq_refl). vm_compute. lia.
  - apply (reveal_ticks demo_platform self 1 eq_refl eq_refl). vm_compute. lia.
Defined.

Lemma build_windows_all_or_nothing_witness :
  windows (app (new_MessageApp (demo_args "hi" "char" "left-to-center"))) = [] /\
  exists (fallback : nat) (self : MessageWindow),
    windows (app (_build_windows demo_platform
                    (new_MessageApp (demo_args "hi" "char" "left-to-center"))))
    = [fallback] /\
    heap (_build_windows demo_platform
            (new_MessageApp (demo_args "hi" "char" "left-to-center"))) !! fallback
    = Some self /\
    layer_shell_enabled self = false /\ destroyed self = false.
Proof.
  set (w := new_MessageApp (demo_args "hi" "char" "left-to-center")).
  split; [reflexivity|].
  destruct (build_windows_all_or_nothing demo_platform w
              [ Some {| connector := "DP-1"; geometry := (2560, 1440)%Z |};
                None;
                Some {| connector := "HDMI-A-1"; geometry := (1920, 1080)%Z |};
                Some {| connector := "DP-2"; geometry := (1920, 1200)%Z |} ])
    as (fallback & self & H1 & H2 & H3 & _ & H5 & _).
  - reflexivity.
  - reflexivity.
  - reflexivity.
  - reflexivity.
  - exists {| connector := "HDMI-A-1"; geometry := (1920, 1080)%Z |}.
    split; [right; right; left; reflexivity | reflexivity].
  - exists fallback, self. repeat split; assumption.
Defined.

Lemma exit_timer_at_most_once_witness :
  (0 < exit_after (args (demo_window "hi" "char" "left-to-center")))%Q /\
  length (exit_timers (effects (run_calls demo_platform
            [call_start_animation; call_tick; call_tick; call_tick;
             call_start_animation; call_tick]
            (demo_window "hi" "char" "left-to-center")))) <= 1 /\
  Forall (fun e => e = timeout_add 1000 cb_exit)
    (exit_timers (effects (run_calls demo_platform
            [call_start_animation; call_tick; call_tick; call_tick;
             call_start_animation; call_tick]
            (demo_window "hi" "char" "left-to-center")))).
Proof.
  set (self := demo_window "hi" "char" "left-to-center").
  split; [reflexivity|].
  destruct (exit_timer_at_most_once demo_platform self
              [call_start_animation; call_tick; call_tick; call_tick;
               call_start_animation; call_tick] 0)
    as (_ & _ & H & _).
  destruct H as (H1 & H2 & _); [reflexivity|]. split; [exact H1 | exact H2].
Defined.

Lemma start_animation_no_tokens_witness :
  idle (demo_window "" "char" "left") /\
  tokens (demo_window "" "char" "left") = [] /\
  done (after (reveal demo_platform 0 (demo_window "" "char" "left"))) = true /\
  current_text (after (reveal demo_platform 0 (demo_window "" "char" "left"))) = [].
Proof.
  set (self := demo_window "" "char" "left").
  assert (Hi : idle self) by (repeat split).
  assert (Ht : tokens self = []) by reflexivity.
  split; [exact Hi|]. split; [exact Ht|].
  destruct (start_animation_no_tokens demo_platform self 0 Hi Ht)
    as (_ & _ & _ & H1 & _ & H2 & _).
  split; [exact H1 | exact H2].
Defined.

Lemma reveal_position_width_witness :
  reveal_position (demo_args "hi there" "word" "left-to-center")
  = "left-to-center"%string /\
  Gtk.size_request
    (label (ticks demo_platform 1
              (after (start_animation demo_platform
                        (demo_window "hi there" "word" "left-to-center")))))
  = (320, -1)%Z /\
  Gtk.size_request
    (label (after (reveal demo_platform 2
                     (demo_window "hi there" "word" "left-to-center"))))
  = (-1, -1)%Z.
Proof.
  set (a := demo_args "hi there" "word" "left-to-center").
  split; [reflexivity|].
  destruct (reveal_position_width demo_platform a None) as [H _].
  destruct (H eq_refl) as [H1 H2]. split.
  - apply (H1 1). vm_compute. lia.
  - apply (H2 2). vm_compute. lia.
Defined.

Lemma word_mode_leading_space_witness :
  mode (demo_args "   " "word" "left-to-center") = "word"%string /\
  join (tokenize (message (demo_args "   " "word" "left-to-center"))
          (mode (demo_args "   " "word" "left-to-center")))
  = lstrip (message (demo_args "   " "word" "left-to-center")) /\
  result (reveal demo_platform 3 (demo_window "   " "word" "left-to-center"))
  = Some 0 /\
  Gtk.size_request
    (label (after (reveal demo_platform 3
                     (demo_window "   " "word" "left-to-center"))))
  = (-1, -1)%Z /\
  effects (reveal demo_platform 3 (demo_window "   " "word" "left-to-center"))
  = [timeout_add 1000 cb_exit].
Proof.
  set (a := demo_args "   " "word" "left-to-center").
  split; [reflexivity|].
  destruct (word_mode_leading_space demo_platform a None 3 eq_refl) as [H1 H2].
  split; [exact H1|].
  destruct H2 as (_ & R & _ & _ & _ & _ & L & _ & E).
  - discriminate.
  - repeat constructor.
  - split; [exact R|]. split; [apply L | exact E].
Defined.

(* ================================================================= *)
(** * Further properties *)

(** ** More on the tokenizer *)

Section MoreClasses.

Variable p : char -> bool.

Lemma drop_while_nil (s : str) :
  drop_while p s = [] -> Forall (fun c => p c = true) s.
Proof.
  induction s as [|c s IH]; simpl; [constructor|].
  destruct (p c) eqn:E; [constructor; auto | discriminate].
Qed.

Lemma drop_while_head (s : str) (c : char) (r : str) :
  drop_while p s = c :: r -> p c = false.
Proof.
  induction s as [|x s IH]; simpl; [discriminate|].
  destruct (p x) eqn:E; [exact IH|]. now intros [= <- _].
Qed.

(** Appending to a string that holds a character outside the class
    changes neither the run at its head nor where the run stops. *)
Lemma while_app_stop (s b : str) :
  drop_while p s <> [] ->
  take_while p (s ++ b) = take_while p s /\
  drop_while p (s ++ b) = drop_while p s ++ b.
Proof.
  induction s as [|x s IH]; simpl; [congruence|].
  destruct (p x); [|now split].
  intros H. destruct (IH H) as [-> ->]. now split.
Qed.

(** The same when what is appended does not begin inside the class. *)
Lemma while_app_fresh (s b : str) :
  take_while p b = [] ->
  take_while p (s ++ b) = take_while p s /\
  drop_while p (s ++ b) = drop_while p s ++ b.
Proof.
  intros Hb. induction s as [|x s [IH1 IH2]]; simpl.
  - rewrite Hb. split; [reflexivity|].
    destruct b as [|y b]; simpl in *; [reflexivity|]. now destruct (p y).
  - destruct (p x); [|now split]. now rewrite IH1, IH2.
Qed.

Lemma drop_while_last (s : str) :
  last (drop_while p s) = None \/ last (drop_while p s) = last s.
Proof.
  induction s as [|x s IH]; simpl; [now left|].
  destruct (p x); [|now right].
  destruct IH as [IH|IH]; [now left|].
  destruct s as [|y s]; [now left|]. right. exact IH.
Qed.

End MoreClasses.

Lemma take_while_space_fresh (b : str) :
  starts_with_space b = false -> take_while isspace b = [].
Proof. destruct b as [|c b]; simpl; [reflexivity|]. now intros ->. Qed.

Lemma last_nonspace_drop (s : str) :
  ends_with_space s = true ->
  drop_while nonspace s <> [] /\ ends_with_space (drop_while nonspace s) = true.
Proof.
  unfold ends_with_space. intros H.
  destruct (last s) as [c|] eqn:El; [|discriminate].
  assert (Hne : drop_while nonspace s <> []).
  { intros Hd. apply drop_while_nil in Hd.
    apply last_Some in El as [s' ->]. apply Forall_app in Hd as [_ Hd].
    inversion Hd as [|? ? Hc _]; subst. unfold nonspace in Hc. now rewrite H in Hc. }
  split; [exact Hne|].
  destruct (drop_while_last nonspace s) as [E|E].
  - apply last_None in E. contradiction.
  - now rewrite E, El.
Qed.

Lemma after_word_ends (s : str) :
  ends_with_space s = true ->
  after_word s = [] \/ ends_with_space (after_word s) = true.
Proof.
  intros H. destruct (last_nonspace_drop s H) as [_ Hd].
  unfold after_word.
  destruct (drop_while_last isspace (drop_while nonspace s)) as [E|E].
  - left. now apply last_None.
  - right. unfold ends_with_space in *. now rewrite E.
Qed.

Lemma word_app (s b : str) :
  ends_with_space s = true -> starts_with_space b = false ->
  first_word (s ++ b) = first_word s /\ after_word (s ++ b) = after_word s ++ b.
Proof.
  intros Hs Hb. destruct (last_nonspace_drop s Hs) as [Hne _].
  unfold first_word, after_word.
  destruct (while_app_stop nonspace s b Hne) as [-> ->].
  destruct (while_app_fresh isspace (drop_while nonspace s) b
              (take_while_space_fresh b Hb)) as [-> ->].
  now split.
Qed.

Lemma ends_with_space_tail (c : char) (s : str) :
  ends_with_space (c :: s) = true -> s = [] \/ ends_with_space s = true.
Proof.
  unfold ends_with_space. destruct s as [|x s]; [now left|].
  rewrite last_cons_cons. now right.
Qed.

Lemma findall_word_app (a b : str) :
  a = [] \/ ends_with_space a = true ->
  starts_with_space b = false ->
  Re.findall Re.word_pattern (a ++ b)
  = Re.findall Re.word_pattern a ++ Re.findall Re.word_pattern b.
Proof.
  intros Ha Hb. revert Ha.
  induction a as [|c s Hc IH|c s Hc IH] using scan_ind; intros Ha.
  - reflexivity.
  - simpl. rewrite !findall_word_space by exact Hc. apply IH.
    destruct Ha as [Ha|Ha]; [discriminate|]. now apply ends_with_space_tail in Ha.
  - simpl. rewrite !findall_word_nonspace by exact Hc.
    destruct Ha as [Ha|Ha]; [discriminate|].
    pose proof Ha as Hlast.
    apply ends_with_space_tail in Ha as [->|Hs].
    + unfold ends_with_space in Hlast. simpl in Hlast. congruence.
    + destruct (word_app s b Hs Hb) as [-> ->]. simpl. f_equal.
      apply IH. destruct (after_word_ends s Hs); auto.
Qed.

Lemma ends_with_space_run (pre d : str) :
  take_while isspace d <> [] ->
  ends_with_space (pre ++ take_while isspace d) = true.
Proof.
  intros Hne. pose proof (take_while_Forall isspace d) as Hall.
  destruct (last (take_while isspace d)) as [x|] eqn:El.
  - apply last_Some in El as [u Eu]. rewrite Eu in *.
    apply Forall_app in Hall as [_ Hx]. inversion Hx as [|? ? Hs _]; subst.
    unfold ends_with_space. now rewrite app_assoc, last_snoc.
  - apply last_None in El. contradiction.
Qed.

Lemma after_word_run (s : str) :
  after_word s <> [] -> take_while isspace (drop_while nonspace s) <> [].
Proof.
  unfold after_word. intros Hne Ht.
  destruct (drop_while nonspace s) as [|x d] eqn:Ed; [now apply Hne|].
  apply drop_while_head in Ed. unfold nonspace in Ed. apply negb_false_iff in Ed.
  simpl in Ht. rewrite Ed in Ht. discriminate.
Qed.

Lemma findall_word_separated (m : str) (i : nat) (t : str) :
  Re.findall Re.word_pattern m !! i = Some t ->
  S i < length (Re.findall Re.word_pattern m) ->
  ends_with_space t = true.
Proof.
  revert i. induction m as [|c s Hc IH|c s Hc IH] using scan_ind; intros i.
  - discriminate.
  - rewrite findall_word_space by exact Hc. apply IH.
  - rewrite findall_word_nonspace by exact Hc. destruct i as [|i]; simpl.
    + intros [= <-] Hlen.
      assert (Hne : after_word s <> []).
      { intros E. rewrite E in Hlen. simpl in Hlen. lia. }
      unfold first_word. rewrite app_comm_cons.
      now apply ends_with_space_run, after_word_run.
    + intros Ht Hlen. apply (IH i); [exact Ht | lia].
Qed.

Lemma findall_word_none (m : str) :
  Re.findall Re.word_pattern m = [] -> Forall (fun c => isspace c = true) m.
Proof.
  induction m as [|c s Hc IH|c s Hc IH] using scan_ind.
  - constructor.
  - rewrite findall_word_space by exact Hc. intros H. constructor; auto.
  - rewrite findall_word_nonspace by exact Hc. discriminate.
Qed.

Lemma join_length (ts : list str) :
  Forall (fun t => t <> []) ts -> length ts <= length (join ts).
Proof.
  unfold join. induction 1 as [|t ts Ht _ IH]; simpl; [lia|].
  rewrite length_app. destruct t; [congruence | simpl; lia].
Qed.

Lemma word_token_nonempty (t : str) : word_token t -> t <> [].
Proof.
  intros (w & sp & -> & Hw & _) E. apply app_eq_nil in E as [E _]. contradiction.
Qed.

Lemma tokenize_other_mode (message : str) (mode : string) :
  mode <> "char"%string -> tokenize message mode = Re.findall Re.word_pattern message.
Proof.
  intros H. unfold tokenize. apply String.eqb_neq in H. now rewrite H.
Qed.

Lemma tokenize_nonempty (message : str) (mode : string) :
  Forall (fun t => t <> []) (tokenize message mode) /\
  length (tokenize message mode) <= length message.
Proof.
  destruct (String.eqb mode "char") eqn:E.
  - apply String.eqb_eq in E as ->.
    change (tokenize message "char") with (map (fun c : char => [c]) message).
    split; [|now rewrite length_map].
    induction message as [|c m IH]; simpl; constructor; [discriminate | exact IH].
  - apply String.eqb_neq in E. rewrite tokenize_other_mode by exact E.
    assert (H : Forall (fun t => t <> []) (Re.findall Re.word_pattern message)).
    { eapply Forall_impl; [apply findall_word_tokens|]. apply word_token_nonempty. }
    split; [exact H|]. apply join_length in H.
    rewrite findall_word_join in H.
    pose proof (drop_while_length isspace message). unfold lstrip in H. lia.
Qed.

(** X1: whatever the mode, no token is empty, so that every call of
    [_tick] reveals at least one character, and there are no more tokens
    than the message has characters. *)
Theorem tokenize_tokens_nonempty (message : str) (mode : string) :
  Forall (fun t => t <> []) (tokenize message mode) /\
  length (tokenize message mode) <= length message.
Proof. apply tokenize_nonempty. Qed.

(** X2: there is no token exactly when there is nothing to show: in char
    mode when the message is empty, in word mode when it holds white space
    only. *)
Theorem tokenize_nil_iff (message : str) :
  (tokenize message "char" = [] <-> message = []) /\
  (tokenize message "word" = [] <-> Forall (fun c => isspace c = true) message).
Proof.
  split.
  - change (tokenize message "char") with (map (fun c : char => [c]) message).
    destruct message; simpl; split; intros H; try reflexivity; discriminate.
  - change (tokenize message "word") with (Re.findall Re.word_pattern message).
    split; [apply findall_word_none | apply findall_word_all_space].
Qed.

(** X3: in word mode every token begins with a character that is not
    white space, and every token but the last ends with white space: the
    run of white space after a word is taken whole. *)
Theorem tokenize_word_separated (message : str) (i : nat) (t : str) :
  tokenize message "word" !! i = Some t ->
  starts_with_space t = false /\ t <> [] /\
  (S i < length (tokenize message "word") -> ends_with_space t = true).
Proof.
  change (tokenize message "word") with (Re.findall Re.word_pattern message).
  intros Ht. split; [|split].
  - pose proof (findall_word_tokens message) as H.
    rewrite Forall_lookup in H. destruct (H i t Ht) as (w & sp & -> & Hw & Hns & _).
    destruct w as [|c w]; [congruence|]. simpl. now inversion Hns.
  - apply word_token_nonempty.
    pose proof (findall_word_tokens message) as H.
    rewrite Forall_lookup in H. exact (H i t Ht).
  - now apply findall_word_separated.
Qed.

Lemma tokenize_word_separated_witness :
  tokenize (lit "hi  there") "word" !! 0 = Some (lit "hi  ") /\
  ends_with_space (lit "hi  ") = true.
Proof.
  split; [reflexivity|].
  apply (tokenize_word_separated (lit "hi  there") 0 (lit "hi  ") eq_refl).
  vm_compute. lia.
Defined.

(** X4: in word mode tokenizing splits at a word boundary: when the first
    part is empty or ends with white space and the second part does not
    begin with white space, the tokens of the concatenation are the tokens
    of the first part followed by those of the second. *)
Theorem tokenize_word_app (a b : str) :
  a = [] \/ ends_with_space a = true ->
  starts_with_space b = false ->
  tokenize (a ++ b) "word" = tokenize a "word" ++ tokenize b "word".
Proof. apply findall_word_app. Qed.

Lemma tokenize_word_app_witness :
  ends_with_space (lit "  hi  ") = true /\
  starts_with_space (lit "there you") = false /\
  tokenize (lit "  hi  " ++ lit "there you") "word"
  = tokenize (lit "  hi  ") "word" ++ tokenize (lit "there you") "word".
Proof.
  split; [reflexivity|]. split; [reflexivity|].
  apply (tokenize_word_app (lit "  hi  ") (lit "there you")).
  - right. reflexivity.
  - reflexivity.
Defined.

(** ** More on the reveal controller *)

Lemma join_tokenize (a : Args) : join (tokenize (message a) (mode a)) = shown a.
Proof.
  unfold shown, tokenize. destruct (String.eqb (mode a) "char").
  - apply join_chars.
  - apply findall_word_join.
Qed.

Lemma ticks_text (env : Platform) (k : nat) (self : MessageWindow) :
  index self = 0 -> current_text self = [] -> k <= length (tokens self) ->
  current_text (ticks env k self) = join (take k (tokens self)).
Proof.
  intros Hi Hc Hk.
  assert (Hrev : revealed self).
  { unfold revealed. rewrite Hi, Hc. split; [lia | reflexivity]. }
  destruct (ticks_revealed env k self Hrev) as [_ ->].
  destruct (ticks_tokens env k self) as [-> _].
  rewrite ticks_index by lia. now rewrite Hi.
Qed.

Lemma ticks_label_text (env : Platform) (k : nat) (self : MessageWindow) :
  index self + S k <= length (tokens self) ->
  Gtk.text (label (ticks env (S k) self)) = current_text (ticks env (S k) self).
Proof.
  intros H. simpl. destruct (ticks_tokens env k self) as [Ht _].
  destruct (tick_step env (ticks env k self)) as (_ & _ & _ & E & _); [|exact E].
  rewrite Ht, ticks_index; lia.
Qed.

Lemma started_with_tokens (env : Platform) (self : MessageWindow) :
  tokens self <> [] -> after (start_animation env self) = self.
Proof.
  intros H. rewrite start_animation_run. now destruct (tokens self).
Qed.

(** X5: a window that runs to the end shows the message: the whole of it
    in char mode, and in word mode the message without the white space it
    begins with.  The label and the accumulated text agree. *)
Theorem reveal_shows_message
    (env : Platform) (a : Args) (monitor : option Monitor) (fuel : nat) :
  length (tokenize (message a) (mode a)) <= fuel ->
  let r := reveal env fuel (new_MessageWindow env a monitor) in
  current_text (after r) = shown a /\ Gtk.text (label (after r)) = shown a.
Proof.
  intros Hf r. subst r.
  destruct (new_window_fields env a monitor) as (_ & Ht & Hidle & _).
  set (self := new_MessageWindow env a monitor) in *.
  rewrite <- join_tokenize, <- Ht. rewrite <- Ht in Hf.
  destruct (tokens self) as [|t ts] eqn:E.
  - destruct (reveal_no_tokens env self fuel Hidle E) as (_ & _ & _ & _ & _ & -> & ->).
    now split.
  - destruct Hidle as (Hi & Hc & _).
    destruct (reveal_enough_fuel env self fuel Hi) as [_ ->]; [now rewrite E|].
    rewrite started_with_tokens by congruence.
    assert (Hcur : current_text (ticks env (length (tokens self)) self)
                   = join (tokens self))
      by (rewrite ticks_text by (try assumption; lia); now rewrite firstn_all).
    assert (Htxt : Gtk.text (label (ticks env (length (tokens self)) self))
                   = current_text (ticks env (length (tokens self)) self)).
    { replace (length (tokens self)) with (S (length ts)) by now rewrite E.
      apply ticks_label_text. rewrite Hi, E. simpl. lia. }
    rewrite Htxt, Hcur, E. now split.
Qed.

Lemma reveal_shows_message_witness :
  length (tokenize (message (demo_args "  hi there" "word" "center"))
            (mode (demo_args "  hi there" "word" "center"))) <= 2 /\
  Gtk.text (label (after (reveal demo_platform 2
                            (new_MessageWindow demo_platform
                               (demo_args "  hi there" "word" "center") None))))
  = lit "hi there".
Proof.
  split; [vm_compute; lia|].
  apply (reveal_shows_message demo_platform (demo_args "  hi there" "word" "center")
           None 2).
  vm_compute. lia.
Defined.

(** X6: each call of [_tick] before the end appends one token, which is
    not empty, to the text, and the label shows the text so far: the text
    on screen grows with every period of the timer. *)
Theorem reveal_progress
    (env : Platform) (a : Args) (monitor : option Monitor) (k : nat) :
  let self := new_MessageWindow env a monitor in
  let started := after (start_animation env self) in
  k < length (tokens self) ->
  exists t : str,
    tokens self !! k = Some t /\ t <> [] /\
    current_text (ticks env (S k) started) = current_text (ticks env k started) ++ t /\
    Gtk.text (label (ticks env (S k) started)) = current_text (ticks env (S k) started) /\
    length (current_text (ticks env k started))
    < length (current_text (ticks env (S k) started)).
Proof.
  intros self started Hk.
  destruct (new_window_fields env a monitor) as (_ & Ht & (Hi & Hc & _) & _).
  fold self in Ht, Hi, Hc.
  assert (Hne : tokens self <> []) by (destruct (tokens self); [simpl in Hk; lia | discriminate]).
  unfold started. rewrite started_with_tokens by exact Hne.
  destruct (lookup_lt_is_Some_2 (tokens self) k Hk) as [t Et].
  exists t. split; [exact Et|].
  assert (Hn : t <> []).
  { destruct (tokenize_nonempty (message a) (mode a)) as [H _].
    rewrite <- Ht, Forall_lookup in H. exact (H k t Et). }
  split; [exact Hn|].
  destruct (ticks_tokens env k self) as [Hts _].
  assert (Hik : index (ticks env k self) = k) by (rewrite ticks_index; lia).
  destruct (tick_step env (ticks env k self)) as (_ & _ & Hcur & Htxt & _).
  { rewrite Hts, Hik. exact Hk. }
  rewrite Hik, Hts, (nth_lookup_Some _ _ _ _ Et) in Hcur.
  simpl ticks. rewrite Htxt, Hcur, length_app.
  repeat split. destruct t; [congruence | simpl; lia].
Qed.

Lemma reveal_progress_witness :
  1 < length (tokens (new_MessageWindow demo_platform
                        (demo_args "hi there" "word" "left") None)) /\
  exists t : str,
    tokens (new_MessageWindow demo_platform
              (demo_args "hi there" "word" "left") None) !! 1 = Some t /\ t <> [].
Proof.
  split; [vm_compute; lia|].
  destruct (reveal_progress demo_platform (demo_args "hi there" "word" "left") None 1)
    as (t & H1 & H2 & _); [vm_compute; lia|].
  exists t. split; assumption.
Defined.

Lemma run_ticks (env : Platform) (k : nat) (self : MessageWindow) :
  index self + k < length (tokens self) ->
  let r := run_calls env (repeat call_tick k) self in
  after r = ticks env k self /\ effects r = [] /\
  exit_scheduled (after r) = exit_scheduled self.
Proof.
  revert self. induction k as [|k IH]; intros self H; [now repeat split|].
  simpl repeat. simpl run_calls. cbv zeta.
  rewrite after_bind, effects_bind. unfold invoke.
  rewrite after_bind, effects_bind, after_ret, effects_ret, app_nil_r.
  destruct (tick_step env self) as (Hr & Hi & _ & _ & Ht & _ & He & Hx); [lia|].
  assert (Htrue : result (_tick env self) = true).
  { rewrite Hr. apply negb_true_iff, Nat.leb_gt. lia. }
  rewrite Htrue in He. simpl in He.
  destruct (IH (after (_tick env self))) as (-> & -> & ->).
  { rewrite Hi, Ht. lia. }
  rewrite He, ticks_front, Hx by exact Htrue. now repeat split.
Qed.

(** X7: while tokens are still to come the window has asked for its
    reveal timer and for nothing else: the auto-close timer is not added,
    and the flag for it is not set, before the last token is out. *)
Theorem no_exit_timer_before_done (env : Platform) (self : MessageWindow) (k : nat) :
  idle self -> k < length (tokens self) ->
  let r := run_calls env (call_start_animation :: repeat call_tick k) self in
  after r = ticks env k self /\
  effects r = [timeout_add (interval_ms (speed (args self))) cb_tick] /\
  exit_scheduled (after r) = false /\
  done (after r) = false.
Proof.
  intros (Hi & _ & _ & Hx) Hk r. subst r.
  simpl run_calls. rewrite after_bind, effects_bind. unfold invoke.
  assert (Hs : start_animation env self
               = (tt, self, [timeout_add (interval_ms (speed (args self))) cb_tick])).
  { rewrite start_animation_run. destruct (tokens self); [simpl in Hk; lia | reflexivity]. }
  rewrite Hs. change (after (?a, ?s, ?e)) with s. change (effects (?a, ?s, ?e)) with e.
  destruct (run_ticks env k self) as (-> & -> & ->); [lia|].
  repeat split; [exact Hx|].
  unfold done. destruct (ticks_tokens env k self) as [-> _].
  rewrite ticks_index by lia. apply Nat.leb_gt. lia.
Qed.

Lemma no_exit_timer_before_done_witness :
  idle (demo_window "hi there" "word" "left-to-center") /\
  1 < length (tokens (demo_window "hi there" "word" "left-to-center")) /\
  effects (run_calls demo_platform [call_start_animation; call_tick]
             (demo_window "hi there" "word" "left-to-center"))
  = [timeout_add 66 cb_tick].
Proof.
  assert (Hi : idle (demo_window "hi there" "word" "left-to-center")) by (repeat split).
  split; [exact Hi|]. split; [vm_compute; lia|].
  apply (no_exit_timer_before_done demo_platform
           (demo_window "hi there" "word" "left-to-center") 1 Hi).
  vm_compute. lia.
Defined.

Lemma invoke_quit (env : Platform) (c : Call) (self : MessageWindow) :
  destroyed (after (invoke env c self)) = destroyed self /\
  (In app_quit (effects (invoke env c self)) ->
   may_quit c = true /\ destroyed self = false).
Proof.
  unfold may_quit, is_quit_key, has_application.
  destruct c; run_method; try destruct (tokens self); simpl;
    try destruct ((keyval =? Gtk.KEY_Escape) || (keyval =? Gtk.KEY_Return)
                  || (keyval =? Gtk.KEY_KP_Enter))%Z; simpl;
    unfold has_application; destruct (destroyed self) eqn:Ed; simpl;
    split_ifs; (split; [auto|]); simpl; intros H;
    repeat (destruct H as [H|H]; try discriminate); try contradiction; auto.
Qed.

(** X8: the application is asked to quit only by [_exit] or by a press
    of Escape, Return or Enter, and only by a window that is not
    destroyed: when a run of calls asks for it, one of the calls is one of
    these; starting the animation and the calls of [_tick] never do. *)
Theorem quit_only_by_exit_or_key (env : Platform) (cs : list Call) (self : MessageWindow) :
  In app_quit (effects (run_calls env cs self)) ->
  destroyed self = false /\ Exists (fun c => may_quit c = true) cs.
Proof.
  revert self. induction cs as [|c cs IH]; intros self; [intros []|].
  simpl run_calls. rewrite effects_bind. intros H.
  destruct (invoke_quit env c self) as [Hd Hq].
  apply in_app_or in H as [H|H].
  - destruct (Hq H) as [H1 H2]. split; [exact H2 | now left].
  - destruct (IH _ H) as [H1 H2]. split; [congruence | now right].
Qed.

Lemma quit_only_by_exit_or_key_witness :
  In app_quit (effects (run_calls demo_platform
                          [call_start_animation; call_key_pressed Gtk.KEY_Escape]
                          (demo_window "hi" "char" "left"))) /\
  Exists (fun c => may_quit c = true)
    [call_start_animation; call_key_pressed Gtk.KEY_Escape].
Proof.
  assert (H : In app_quit (effects (run_calls demo_platform
                          [call_start_animation; call_key_pressed Gtk.KEY_Escape]
                          (demo_window "hi" "char" "left"))))
    by (vm_compute; right; left; reflexivity).
  split; [exact H|].
  exact (proj2 (quit_only_by_exit_or_key demo_platform _ _ H)).
Defined.

(** ** More on the layout and on anchoring *)

Lemma invoke_alignment (env : Platform) (c : Call) (self : MessageWindow) :
  policy_alignment (args self) (label self) ->
  args (after (invoke env c self)) = args self /\
  policy_alignment (args self) (label (after (invoke env c self))).
Proof.
  unfold policy_alignment. intros [H1 H2].
  destruct (String.eqb (reveal_position (args self)) "center") eqn:Ec;
    [|destruct (String.eqb (reveal_position (args self)) "left") eqn:El];
    destruct c; run_method; rewrite ?Ec, ?El; simpl;
    try destruct (tokens self); simpl; rewrite ?Ec, ?El; simpl;
    split_ifs; simpl; rewrite ?Ec, ?El; auto; congruence.
Qed.

Lemma run_calls_alignment (env : Platform) (cs : list Call) (self : MessageWindow) :
  policy_alignment (args self) (label self) ->
  policy_alignment (args self) (label (after (run_calls env cs self))).
Proof.
  revert self. induction cs as [|c cs IH]; intros self H; [exact H|].
  simpl run_calls. rewrite after_bind.
  destruct (invoke_alignment env c self H) as [Ha H'].
  rewrite <- Ha. apply IH. now rewrite Ha.
Qed.

Lemma new_window_alignment (env : Platform) (a : Args) (monitor : option Monitor) :
  let self := new_MessageWindow env a monitor in
  policy_alignment a (label self) /\
  (reveal_position a = "left-to-center"%string ->
   Gtk.xalign (label self) = 0%Q /\ Gtk.justify (label self) = Gtk.JUSTIFY_LEFT).
Proof.
  unfold policy_alignment, new_MessageWindow, __init__, _build_ui, _setup_layer_shell.
  run_method.
  destruct monitor as [mon|];
    [destruct (layer_shell env); [destruct (is_layer_window env mon)|]|];
    simpl;
    destruct (String.eqb (reveal_position a) "center") eqn:Ec; simpl;
    destruct (String.eqb (reveal_position a) "left") eqn:El; simpl;
    split_ifs; simpl; rewrite ?Ec, ?El; (split; [auto|]);
    intros Hm; rewrite Hm in *; simpl in *; try discriminate; auto.
Qed.

(** A call of [_tick] that leaves a token to come changes the text of the
    label and nothing else of it. *)
Lemma tick_label_keeps (env : Platform) (self : MessageWindow) :
  result (_tick env self) = true ->
  Gtk.xalign (label (after (_tick env self))) = Gtk.xalign (label self) /\
  Gtk.justify (label (after (_tick env self))) = Gtk.justify (label self) /\
  Gtk.halign (label (after (_tick env self))) = Gtk.halign (label self).
Proof. run_method. split_ifs; intros H; try discriminate; auto. Qed.

Lemma ticks_label_keeps (env : Platform) (k : nat) (self : MessageWindow) :
  index self + k < length (tokens self) ->
  Gtk.xalign (label (ticks env k self)) = Gtk.xalign (label self) /\
  Gtk.justify (label (ticks env k self)) = Gtk.justify (label self).
Proof.
  induction k as [|k IH]; intros H; [now split|].
  destruct IH as [<- <-]; [lia|]. simpl.
  destruct (ticks_tokens env k self) as [Ht _].
  assert (Hi : index (ticks env k self) = index self + k) by (apply ticks_index; lia).
  destruct (tick_label_keeps env (ticks env k self)) as (-> & -> & _); [|now split].
  destruct (tick_step env (ticks env k self)) as (-> & _).
  - rewrite Ht, Hi. lia.
  - rewrite Ht, Hi. apply negb_true_iff, Nat.leb_gt. lia.
Qed.

(** X9: the label is centred in its box in every state.  Under [center]
    its text is centred and under [left] it is left-aligned, whatever
    calls reach the window; under [left-to-center] the text is
    left-aligned for as long as tokens are still to come. *)
Theorem alignment_by_policy
    (env : Platform) (a : Args) (monitor : option Monitor) (cs : list Call) (k : nat) :
  let self := new_MessageWindow env a monitor in
  let l := label (after (run_calls env cs self)) in
  Gtk.halign l = Gtk.ALIGN_CENTER /\
  (reveal_position a = "center"%string ->
   Gtk.xalign l = (1 # 2)%Q /\ Gtk.justify l = Gtk.JUSTIFY_CENTER) /\
  (reveal_position a = "left"%string ->
   Gtk.xalign l = 0%Q /\ Gtk.justify l = Gtk.JUSTIFY_LEFT) /\
  (reveal_position a = "left-to-center"%string -> k < length (tokens self) ->
   Gtk.xalign (label (ticks env k (after (start_animation env self)))) = 0%Q /\
   Gtk.justify (label (ticks env k (after (start_animation env self))))
   = Gtk.JUSTIFY_LEFT).
Proof.
  intros self l.
  destruct (new_window_fields env a monitor) as (Ha & _ & (Hi & _) & _).
  destruct (new_window_alignment env a monitor) as [Hal Hltc].
  fold self in Ha, Hi, Hal, Hltc.
  pose proof (run_calls_alignment env cs self) as H.
  rewrite Ha in H. destruct (H Hal) as [H1 H2]. fold l in H1, H2.
  split; [exact H1|]. split; [|split].
  - intros Hm. rewrite Hm in H2. exact H2.
  - intros Hm. rewrite Hm in H2. exact H2.
  - intros Hm Hk.
    rewrite started_with_tokens
      by (destruct (tokens self); [simpl in Hk; lia | discriminate]).
    destruct (ticks_label_keeps env k self) as [-> ->]; [lia|]. now apply Hltc.
Qed.

Lemma alignment_by_policy_witness :
  reveal_position (demo_args "hi there" "word" "left") = "left"%string /\
  Gtk.justify (label (after (run_calls demo_platform
                               [call_start_animation; call_tick; call_tick; call_tick]
                               (demo_window "hi there" "word" "left"))))
  = Gtk.JUSTIFY_LEFT.
Proof.
  split; [reflexivity|].
  destruct (alignment_by_policy demo_platform (demo_args "hi there" "word" "left") None
              [call_start_animation; call_tick; call_tick; call_tick] 0)
    as (_ & _ & H & _).
  now destruct (H eq_refl).
Defined.

Lemma invoke_anchoring (env : Platform) (c : Call) (self : MessageWindow) :
  layer_shell_enabled (after (invoke env c self)) = layer_shell_enabled self /\
  surface (after (invoke env c self)) = surface self /\
  window_size (after (invoke env c self)) = window_size self.
Proof.
  destruct c; run_method; try destruct (tokens self); simpl; split_ifs; auto.
Qed.

Lemma new_window_anchoring (env : Platform) (a : Args) (monitor : option Monitor) :
  let self := new_MessageWindow env a monitor in
  match monitor with
  | Some mon =>
      if layer_shell env && is_layer_window env mon
      then layer_shell_enabled self = true /\
           surface self = Some (full_screen_overlay mon) /\
           window_size self = Some (geometry mon)
      else layer_shell_enabled self = false /\ surface self = None /\
           window_size self = None
  | None => layer_shell_enabled self = false /\ surface self = None /\
            window_size self = None
  end.
Proof.
  unfold new_MessageWindow, __init__, _build_ui, _setup_layer_shell.
  run_method.
  destruct monitor as [mon|];
    [destruct (layer_shell env); [destruct (is_layer_window env mon)|]|];
    simpl; split_ifs; auto.
Qed.

(** X10: a window is anchored exactly when it was made for a monitor,
    layer shell is there and the window became a layer window.  Under
    these conditions it covers the monitor as an overlay, all four edges
    anchored with no margin, no exclusive zone and keyboard focus on
    demand, and it has the size of the monitor; when it is not anchored it
    has no surface and no size.  No later call changes any of this. *)
Theorem anchoring_fixed_at_creation
    (env : Platform) (a : Args) (monitor : option Monitor) (cs : list Call) :
  let self := new_MessageWindow env a monitor in
  let self' := after (run_calls env cs self) in
  (layer_shell_enabled self = true <->
   exists mon, monitor = Some mon /\ layer_shell env = true /\
               is_layer_window env mon = true) /\
  (forall mon, monitor = Some mon -> layer_shell env = true ->
     is_layer_window env mon = true ->
     layer_shell_enabled self = true /\
     surface self = Some (full_screen_overlay mon) /\
     window_size self = Some (geometry mon)) /\
  (layer_shell_enabled self = false -> surface self = None /\ window_size self = None) /\
  layer_shell_enabled self' = layer_shell_enabled self /\
  surface self' = surface self /\
  window_size self' = window_size self.
Proof.
  intros self self'.
  pose proof (new_window_anchoring env a monitor) as H. fold self in H.
  split; [|split; [|split]].
  - split.
    + intros He. destruct monitor as [mon|]; [|destruct H; congruence].
      destruct (layer_shell env) eqn:E1, (is_layer_window env mon) eqn:E2;
        simpl in H; destruct H as (H1 & H2 & H3); try congruence.
      exists mon. now repeat split.
    + intros (mon & -> & E1 & E2). rewrite E1, E2 in H. apply H.
  - intros mon -> E1 E2. rewrite E1, E2 in H. exact H.
  - intros He. destruct monitor as [mon|]; [|now destruct H].
    destruct (layer_shell env && is_layer_window env mon);
      destruct H as (H1 & H2 & H3); [congruence | now split].
  - subst self'. clear H. generalize self. clear self.
    induction cs as [|c cs IH]; intros self; [now repeat split|].
    simpl run_calls. rewrite after_bind.
    destruct (invoke_anchoring env c self) as (<- & <- & <-). apply IH.
Qed.

Lemma anchoring_fixed_at_creation_witness :
  layer_shell demo_platform = true /\
  is_layer_window demo_platform
    {| connector := "DP-1"; geometry := (2560, 1440)%Z |} = true /\
  layer_shell_enabled
    (new_MessageWindow demo_platform (demo_args "hi" "char" "left")
       (Some {| connector := "DP-1"; geometry := (2560, 1440)%Z |})) = true /\
  surface
    (new_MessageWindow demo_platform (demo_args "hi" "char" "left")
       (Some {| connector := "DP-1"; geometry := (2560, 1440)%Z |}))
  = Some (full_screen_overlay {| connector := "DP-1"; geometry := (2560, 1440)%Z |}) /\
  layer_shell_enabled
    (new_MessageWindow demo_platform (demo_args "hi" "char" "left")
       (Some {| connector := "HDMI-A-1"; geometry := (1920, 1080)%Z |})) = false /\
  surface
    (new_MessageWindow demo_platform (demo_args "hi" "char" "left")
       (Some {| connector := "HDMI-A-1"; geometry := (1920, 1080)%Z |})) = None.
Proof.
  split; [reflexivity|]. split; [reflexivity|].
  destruct (anchoring_fixed_at_creation demo_platform (demo_args "hi" "char" "left")
              (Some {| connector := "DP-1"; geometry := (2560, 1440)%Z |}) [])
    as (_ & Hok & _).
  destruct (Hok _ eq_refl eq_refl eq_refl) as (H1 & H2 & _).
  split; [exact H1|]. split; [exact H2|].
  split; [reflexivity|].
  destruct (anchoring_fixed_at_creation demo_platform (demo_args "hi" "char" "left")
              (Some {| connector := "HDMI-A-1"; geometry := (1920, 1080)%Z |}) [])
    as (_ & _ & H & _).
  now destruct (H eq_refl).
Defined.

(** ** More on the period of the timer *)

Lemma interval_ms_floor (speed : Q) :
  interval_ms speed = Z.max 1 (Qfloor (1000 / py_max speed (1 # 100))).
Proof.
  unfold interval_ms. destruct (py_max_spec speed (1 # 100)) as (_ & H & _).
  destruct (quotient_bounds _ H) as [Hpos _].
  now rewrite py_int_floor by now apply Qlt_le_weak.
Qed.

Lemma py_max_mono (a b e : Q) : (a <= b)%Q -> (py_max a e <= py_max b e)%Q.
Proof.
  intros H. destruct (py_max_spec a e) as (_ & _ & [-> | ->]);
    destruct (py_max_spec b e) as (Hb & He & _).
  - now apply Qle_trans with b.
  - exact He.
Qed.

Lemma quotient_antitone (r1 r2 : Q) :
  (0 < r1)%Q -> (r1 <= r2)%Q -> (1000 / r2 <= 1000 / r1)%Q.
Proof.
  intros H1 H12. assert (H2 : (0 < r2)%Q) by now apply Qlt_le_trans with r1.
  apply Qle_shift_div_l; [exact H1|].
  apply Qle_trans with (1000 / r2 * r2)%Q.
  - apply Qmult_le_l; [|exact H12].
    apply Qlt_shift_div_l; [exact H2 | now rewrite Qmult_0_l].
  - rewrite Qmult_comm, Qmult_div_r; [apply Qle_refl|].
    intros E. rewrite E in H2. discriminate.
Qed.

(** X11: a higher speed never gives a longer period. *)
Theorem interval_ms_antitone (speed1 speed2 : Q) :
  (speed1 <= speed2)%Q -> (interval_ms speed2 <= interval_ms speed1)%Z.
Proof.
  intros H. rewrite !interval_ms_floor.
  apply Z.max_le_compat_l, Qfloor_resp_le, quotient_antitone.
  - destruct (py_max_spec speed1 (1 # 100)) as (_ & He & _).
    eapply Qlt_le_trans; [|exact He]. reflexivity.
  - now apply py_max_mono.
Qed.

Lemma interval_ms_antitone_witness :
  (15 <= 30)%Q /\ (interval_ms 30 <= interval_ms 15)%Z.
Proof.
  split; [discriminate|]. apply (interval_ms_antitone 15 30). discriminate.
Defined.

(** X12: for a speed between 0.01 and 1000 tokens a second the period
    is the whole number of milliseconds in 1000 / speed: the timer is
    never slower than the speed asked for, and faster by less than one
    millisecond a token.  Above 1000 the period is one millisecond. *)
Theorem interval_ms_rate (speed : Q) :
  (1 # 100 <= speed)%Q ->
  ((speed <= 1000)%Q ->
   (inject_Z (interval_ms speed) * speed <= 1000)%Q /\
   (1000 < (inject_Z (interval_ms speed) + 1) * speed)%Q) /\
  ((1000 <= speed)%Q -> interval_ms speed = 1%Z).
Proof.
  intros Hlo.
  assert (Hpos : (0 < speed)%Q) by (eapply Qlt_le_trans; [|exact Hlo]; reflexivity).
  assert (Hne : ~ (speed == 0)%Q) by (intros E; rewrite E in Hpos; discriminate).
  assert (Hr : py_max speed (1 # 100) = speed).
  { unfold py_max. apply Qle_bool_iff in Hlo. now rewrite Hlo. }
  assert (E : interval_ms speed = Z.max 1 (Qfloor (1000 / speed)))
    by now rewrite interval_ms_floor, Hr.
  split.
  - intros Hhi.
    assert (H1 : (1 <= Qfloor (1000 / speed))%Z).
    { change 1%Z with (Qfloor 1). apply Qfloor_resp_le.
      apply Qle_shift_div_l; [exact Hpos | now rewrite Qmult_1_l]. }
    rewrite E, Z.max_r by exact H1. split.
    + apply Qle_trans with (1000 / speed * speed)%Q.
      * apply Qmult_le_compat_r; [apply Qfloor_le | now apply Qlt_le_weak].
      * rewrite Qmult_comm, Qmult_div_r by exact Hne. apply Qle_refl.
    + apply Qle_lt_trans with (1000 / speed * speed)%Q.
      * rewrite Qmult_comm, Qmult_div_r by exact Hne. apply Qle_refl.
      * apply Qmult_lt_compat_r; [exact Hpos|].
        eapply Qlt_le_trans; [apply Qlt_floor|].
        rewrite inject_Z_plus. apply Qle_refl.
  - intros Hhi. rewrite E.
    assert (H1 : (Qfloor (1000 / speed) <= 1)%Z).
    { apply Z.le_trans with (Qfloor 1); [|reflexivity]. apply Qfloor_resp_le.
      apply Qle_shift_div_r; [exact Hpos | now rewrite Qmult_1_l]. }
    lia.
Qed.

Lemma interval_ms_rate_witness :
  (1 # 100 <= 15)%Q /\ (15 <= 1000)%Q /\
  (inject_Z (interval_ms 15) * 15 <= 1000)%Q.
Proof.
  split; [discriminate|]. split; [discriminate|].
  destruct (interval_ms_rate 15) as [H _]; [discriminate|].
  destruct H as [H _]; [discriminate | exact H].
Defined.

(** ** Preloading the layer-shell library *)

Lemma find_library_run (os : Preload.Os) :
  Preload._find_gtk4_layer_shell_library os
  = Some match Preload.find_library os (lit "gtk4-layer-shell") with
         | Some (c :: d) =>
             if Preload.isabs (c :: d) && negb (Preload.path_exists os (c :: d))
             then lit "libgtk4-layer-shell.so.0"
             else c :: d
         | _ => lit "libgtk4-layer-shell.so.0"
         end.
Proof.
  unfold Preload._find_gtk4_layer_shell_library.
  destruct (Preload.find_library os (lit "gtk4-layer-shell")) as [[|c d]|];
    try reflexivity.
  change (Preload.first_usable os _)
    with (if Preload.isabs (c :: d)
          then if Preload.path_exists os (c :: d) then Some (c :: d)
               else Preload.first_usable os Preload.fallbacks
          else Some (c :: d)).
  destruct (Preload.isabs (c :: d)); [|reflexivity].
  destruct (Preload.path_exists os (c :: d)); reflexivity.
Qed.

Lemma find_library_some (os : Preload.Os) :
  exists c d, Preload._find_gtk4_layer_shell_library os = Some (c :: d).
Proof.
  rewrite find_library_run.
  destruct (Preload.find_library os (lit "gtk4-layer-shell")) as [[|c d]|];
    try (now eexists _, _).
  destruct (Preload.isabs (c :: d) && negb (Preload.path_exists os (c :: d)));
    now eexists _, _.
Qed.

(** X13: the search for the library always ends with a name, never with
    [None]: the name that [ctypes] found when it is a bare name or a path
    that exists, and [libgtk4-layer-shell.so.0] in every other case, that
    is when [ctypes] found nothing, or an empty name, or an absolute path
    that does not exist.  The absolute paths of the list are never
    reached, since a bare name comes before them. *)
Theorem find_library_never_fails (os : Preload.Os) :
  exists library : str,
    Preload._find_gtk4_layer_shell_library os = Some library /\
    library <> [] /\
    (forall detected,
       Preload.find_library os (lit "gtk4-layer-shell") = Some detected ->
       detected <> [] ->
       Preload.isabs detected = false \/ Preload.path_exists os detected = true ->
       library = detected) /\
    (Preload.find_library os (lit "gtk4-layer-shell") = None \/
     Preload.find_library os (lit "gtk4-layer-shell") = Some [] \/
     (exists detected,
        Preload.find_library os (lit "gtk4-layer-shell") = Some detected /\
        Preload.isabs detected = true /\
        Preload.path_exists os detected = false) ->
     library = lit "libgtk4-layer-shell.so.0") /\
    (forall os' : Preload.Os,
       Preload.find_library os' = Preload.find_library os ->
       (forall path, Preload.find_library os (lit "gtk4-layer-shell") = Some path ->
                     Preload.path_exists os' path = Preload.path_exists os path) ->
       Preload._find_gtk4_layer_shell_library os' = Some library).
Proof.
  rewrite find_library_run.
  destruct (Preload.find_library os (lit "gtk4-layer-shell")) as [[|c d]|] eqn:E.
  - exists (lit "libgtk4-layer-shell.so.0").
    split; [reflexivity|]. split; [discriminate|]. split; [|split].
    + intros detected [= <-] H. congruence.
    + reflexivity.
    + intros os' Hf _. now rewrite find_library_run, Hf, E.
  - destruct (Preload.isabs (c :: d)) eqn:Ea, (Preload.path_exists os (c :: d)) eqn:Ee;
      simpl; eexists; (split; [reflexivity|]); (split; [discriminate|]);
      (split; [intros detected [= <-] _ [H|H]; congruence|]);
      (split;
       [intros [H|[H|(detected & [= <-] & H1 & H2)]]; congruence|]);
      intros os' Hf Hp; rewrite find_library_run, Hf, E, Ea, (Hp _ eq_refl), Ee;
      reflexivity.
  - exists (lit "libgtk4-layer-shell.so.0").
    split; [reflexivity|]. split; [discriminate|]. split; [|split].
    + discriminate.
    + reflexivity.
    + intros os' Hf _. now rewrite find_library_run, Hf, E.
Qed.

Lemma find_library_never_fails_witness :
  Preload.isabs (lit "/opt/lib/libgtk4-layer-shell.so") = true /\
  exists library : str,
    Preload._find_gtk4_layer_shell_library
      {| Preload.find_library := fun _ => Some (lit "/opt/lib/libgtk4-layer-shell.so");
         Preload.path_exists := fun _ => false |} = Some library /\
    library = lit "libgtk4-layer-shell.so.0".
Proof.
  split; [reflexivity|].
  destruct (find_library_never_fails
              {| Preload.find_library := fun _ => Some (lit "/opt/lib/libgtk4-layer-shell.so");
                 Preload.path_exists := fun _ => false |})
    as (library & H1 & _ & _ & H & _).
  exists library. split; [exact H1|]. apply H.
  right. right. exists (lit "/opt/lib/libgtk4-layer-shell.so"). now repeat split.
Defined.

(** What [_ensure_layer_shell_preloaded] does when no guard stops it. *)
Lemma ensure_run (os : Preload.Os) (is_main : bool) (environ : gmap str str) :
  let current := default [] (environ !! lit "LD_PRELOAD") in
  let stop :=
    negb is_main
    || bool_decide (environ !! lit "HYPR_MESSAGE_PRELOAD_DONE" = Some (lit "1"))
    || bool_decide (environ !! lit "HYPR_MESSAGE_DISABLE_PRELOAD" = Some (lit "1"))
    || Preload.contains current (lit "gtk4-layer-shell") in
  exists library : str,
    Preload._find_gtk4_layer_shell_library os = Some library /\
    Preload._ensure_layer_shell_preloaded os is_main environ
    = if stop then Preload.Return
      else Preload.Execvpe
             (<[lit "HYPR_MESSAGE_PRELOAD_DONE" := lit "1"]>
                (<[lit "LD_PRELOAD" := Preload.strip (library ++ lit " " ++ current)]>
                   environ)).
Proof.
  intros current stop. subst stop.
  destruct (find_library_some os) as (c & d & Hf). exists (c :: d).
  split; [exact Hf|].
  unfold Preload._ensure_layer_shell_preloaded. rewrite Hf. fold current.
  destruct is_main; simpl; [|reflexivity].
  destruct (bool_decide (environ !! lit "HYPR_MESSAGE_PRELOAD_DONE" = Some (lit "1")));
    simpl; [reflexivity|].
  destruct (bool_decide (environ !! lit "HYPR_MESSAGE_DISABLE_PRELOAD" = Some (lit "1")));
    simpl; [reflexivity|].
  destruct (Preload.contains current (lit "gtk4-layer-shell")); reflexivity.
Qed.

(** X14: the process is replaced exactly when the module runs as
    [__main__], neither guard variable is "1" and [LD_PRELOAD] does not
    mention gtk4-layer-shell already; a library that cannot be found never
    stops it.  The new environment marks the preload as done, puts the
    library in front of the old [LD_PRELOAD], and leaves every other
    variable as it was. *)
Theorem preload_exec (os : Preload.Os) (is_main : bool) (environ : gmap str str) :
  let current := default [] (environ !! lit "LD_PRELOAD") in
  (Preload._ensure_layer_shell_preloaded os is_main environ = Preload.Return <->
   is_main = false \/
   environ !! lit "HYPR_MESSAGE_PRELOAD_DONE" = Some (lit "1") \/
   environ !! lit "HYPR_MESSAGE_DISABLE_PRELOAD" = Some (lit "1") \/
   Preload.contains current (lit "gtk4-layer-shell") = true) /\
  (forall env,
     Preload._ensure_layer_shell_preloaded os is_main environ = Preload.Execvpe env ->
     exists library : str,
       Preload._find_gtk4_layer_shell_library os = Some library /\
       env !! lit "HYPR_MESSAGE_PRELOAD_DONE" = Some (lit "1") /\
       env !! lit "LD_PRELOAD" = Some (Preload.strip (library ++ lit " " ++ current)) /\
       forall name,
         name <> lit "HYPR_MESSAGE_PRELOAD_DONE" -> name <> lit "LD_PRELOAD" ->
         env !! name = environ !! name).
Proof.
  intros current. destruct (ensure_run os is_main environ) as (library & Hf & ->).
  fold current. split.
  - destruct is_main; simpl; [|split; auto].
    repeat case_bool_decide; simpl;
      try (split; [intros _; auto | reflexivity]).
    destruct (Preload.contains current (lit "gtk4-layer-shell")) eqn:Ec;
      [split; [intros _; auto | reflexivity]|].
    split; [discriminate|]. intros [Hx|[Hx|[Hx|Hx]]]; try discriminate; contradiction.
  - intros env He.
    destruct (_ || _); [discriminate|]. injection He as <-.
    exists library. split; [exact Hf|]. split; [apply lookup_insert_eq|]. split.
    + rewrite lookup_insert_ne by discriminate. apply lookup_insert_eq.
    + intros name H1 H2. now rewrite !lookup_insert_ne by congruence.
Qed.

Lemma preload_exec_witness :
  exists env,
    Preload._ensure_layer_shell_preloaded
      bare_os true (<[lit "HOME" := lit "/root"]> ∅) = Preload.Execvpe env /\
    env !! lit "HOME" = Some (lit "/root").
Proof.
  eexists. split; [reflexivity|].
  destruct (preload_exec bare_os true (<[lit "HOME" := lit "/root"]> ∅)) as [_ H].
  destruct (H _ eq_refl) as (library & _ & _ & _ & Hk).
  rewrite Hk by discriminate. apply lookup_insert_eq.
Defined.

(** X15: the process is replaced at most once: under the environment
    that an exec passes on, the function returns, whatever the new process
    finds on the system. *)
Theorem preload_at_most_once
    (os os' : Preload.Os) (is_main is_main' : bool) (environ env : gmap str str) :
  Preload._ensure_layer_shell_preloaded os is_main environ = Preload.Execvpe env ->
  Preload._ensure_layer_shell_preloaded os' is_main' env = Preload.Return.
Proof.
  destruct (ensure_run os is_main environ) as (library & _ & E1). rewrite E1.
  destruct (_ || _); [discriminate|]. intros [= <-].
  match goal with
  | |- Preload._ensure_layer_shell_preloaded _ _ ?e = _ =>
      destruct (ensure_run os' is_main' e) as (library' & _ & E2)
  end.
  rewrite E2, lookup_insert_eq, bool_decide_eq_true_2 by reflexivity.
  now rewrite orb_true_r.
Qed.

Lemma preload_at_most_once_witness :
  Preload._ensure_layer_shell_preloaded bare_os true ∅
  = Preload.Execvpe preloaded_environ /\
  Preload._ensure_layer_shell_preloaded bare_os true preloaded_environ
  = Preload.Return.
Proof.
  split; [reflexivity|].
  apply (preload_at_most_once bare_os bare_os true true ∅). reflexivity.
Defined.

Lemma rstrip_fixed (s : str) : ends_with_space s = false -> Preload.rstrip s = s.
Proof.
  unfold Preload.rstrip, ends_with_space. intros H.
  destruct (rev s) as [|c r] eqn:E.
  - simpl. apply (f_equal (@rev _)) in E. now rewrite rev_involutive in E.
  - assert (Es : s = rev r ++ [c]).
    { apply (f_equal (@rev _)) in E. now rewrite rev_involutive in E. }
    rewrite Es, last_snoc in H. simpl. rewrite H. simpl. now rewrite Es.
Qed.

Lemma rstrip_space (s : str) : Preload.rstrip (s ++ lit " ") = Preload.rstrip s.
Proof. unfold Preload.rstrip. now rewrite rev_app_distr. Qed.

Lemma ends_with_space_app (s t : str) :
  t <> [] -> ends_with_space (s ++ t) = ends_with_space t.
Proof.
  intros H. unfold ends_with_space. rewrite last_app.
  destruct (last t) eqn:E; [reflexivity|]. apply last_None in E. contradiction.
Qed.

(** X16: when the library name has no white space at either end, the
    [LD_PRELOAD] handed on is the library alone if the variable was unset
    or empty, with no trailing space, and otherwise the library, one
    space, and the old value as it was up to white space at its end. *)
Theorem preload_value (library current : str) :
  library <> [] ->
  starts_with_space library = false -> ends_with_space library = false ->
  (current = [] -> Preload.strip (library ++ lit " " ++ current) = library) /\
  (ends_with_space current = false -> current <> [] ->
   Preload.strip (library ++ lit " " ++ current) = library ++ lit " " ++ current) /\
  Preload.strip (library ++ lit " " ++ current)
  = library ++ Preload.rstrip (lit " " ++ current) /\
  forall os, Preload.find_library os (lit "gtk4-layer-shell") = None ->
    exists lib, Preload._find_gtk4_layer_shell_library os = Some lib /\
                lib <> [] /\ starts_with_space lib = false /\
                ends_with_space lib = false.
Proof.
  intros Hne Hs He.
  assert (Hl : forall t, lstrip (library ++ t) = library ++ t).
  { intros t. apply lstrip_fixed. destruct library; [congruence | exact Hs]. }
  assert (Hfresh : take_while isspace (rev library) = []).
  { unfold ends_with_space in He. destruct (rev library) as [|c r] eqn:E; [reflexivity|].
    apply (f_equal (@rev _)) in E. rewrite rev_involutive in E. simpl in E.
    rewrite E, last_snoc in He. simpl. now rewrite He. }
  assert (Hgen : Preload.strip (library ++ lit " " ++ current)
                 = library ++ Preload.rstrip (lit " " ++ current)).
  { unfold Preload.strip. rewrite Hl. unfold Preload.rstrip.
    rewrite rev_app_distr.
    destruct (while_app_fresh isspace (rev (lit " " ++ current)) (rev library) Hfresh)
      as [_ ->].
    now rewrite rev_app_distr, rev_involutive. }
  split; [|split; [|split]].
  - intros ->. now rewrite Hgen, app_nil_r.
  - intros Hc Hn. rewrite Hgen. f_equal. apply rstrip_fixed.
    now rewrite ends_with_space_app.
  - exact Hgen.
  - intros os Hf. rewrite find_library_run, Hf. eexists. split; [reflexivity|].
    repeat split; discriminate.
Qed.

Lemma preload_value_witness :
  lit "libgtk4-layer-shell.so.0" <> [] /\
  Preload.strip (lit "libgtk4-layer-shell.so.0" ++ lit " " ++ lit "/usr/lib/libfoo.so")
  = lit "libgtk4-layer-shell.so.0 /usr/lib/libfoo.so".
Proof.
  split; [discriminate|].
  destruct (preload_value (lit "libgtk4-layer-shell.so.0") (lit "/usr/lib/libfoo.so"))
    as (_ & H & _).
  - discriminate.
  - reflexivity.
  - reflexivity.
  - apply H; [reflexivity | discriminate].
Defined.

(** ** More on the windows of the application *)

(** The loop over the monitors when every monitor takes a layer surface:
    one window for each, appended in the order of the list. *)
Lemma build_each_succeeds (env : Platform) (monitors : list (option Monitor)) (w : World) :
  layer_shell env = true ->
  Forall (fun mon => is_layer_window env mon = true) (listed monitors) ->
  let w' := build_each env monitors w in
  windows (app w')
  = windows (app w) ++ seq (length (heap w)) (length (listed monitors)) /\
  heap w'
  = heap w ++ map (fun mon => new_MessageWindow env (app_args (app w)) (Some mon))
                (listed monitors) /\
  app_args (app w') = app_args (app w) /\
  animation_started (app w') = animation_started (app w) /\
  sources w' = sources w /\ stderr w' = stderr w /\
  presented w' = presented w /\ quit w' = quit w.
Proof.
  intros Hls. revert w. unfold listed.
  induction monitors as [|[mon|] rest IH]; intros w Hall; simpl in *.
  - rewrite !app_nil_r. now repeat split.
  - apply Forall_cons in Hall as [Hm Hall].
    destruct (new_window_fields env (app_args (app w)) (Some mon))
      as (_ & _ & _ & _ & Hl).
    rewrite Hls, Hm in Hl. simpl in Hl. rewrite Hl. simpl negb. cbv iota.
    set (self := new_MessageWindow env (app_args (app w)) (Some mon)) in *.
    set (w2 := set_windows _ _).
    destruct (IH w2 Hall) as (I1 & I2 & I3 & I4 & I5 & I6 & I7 & I8).
    rewrite I1, I2, I3, I4, I5, I6, I7, I8. subst w2. simpl.
    rewrite length_app, <- !app_assoc. simpl.
    replace (length (heap w) + 1) with (S (length (heap w))) by lia.
    now repeat split.
  - now apply IH.
Qed.

(** X17: when every monitor is asked for, layer shell is there and
    every monitor of the display takes a layer surface, [_build_windows]
    makes one window for each monitor, in the order of the list, anchored
    on that monitor and not destroyed, and prints no warning. *)
Theorem build_windows_all_anchored
    (env : Platform) (w : World) (monitors : list (option Monitor)) :
  windows (app w) = [] ->
  all_monitors (app_args (app w)) = true ->
  layer_shell env = true ->
  display env = Some monitors ->
  Forall (fun mon => is_layer_window env mon = true) (listed monitors) ->
  listed monitors <> [] ->
  let w' := _build_windows env w in
  windows (app w') = seq (length (heap w)) (length (listed monitors)) /\
  heap w'
  = heap w ++ map (fun mon => new_MessageWindow env (app_args (app w)) (Some mon))
                (listed monitors) /\
  stderr w' = stderr w /\
  (forall i mon, listed monitors !! i = Some mon ->
     exists self,
       heap w' !! (length (heap w) + i) = Some self /\
       layer_shell_enabled self = true /\
       surface self = Some (full_screen_overlay mon) /\
       window_size self = Some (geometry mon) /\
       destroyed self = false).
Proof.
  intros Hw Hall Hls Hd Hok Hne w'. subst w'.
  unfold _build_windows. rewrite Hw, Hall, Hls, Hd. simpl.
  destruct (build_each_succeeds env monitors w Hls Hok)
    as (B1 & B2 & _ & _ & _ & B6 & _).
  set (w2 := build_each env monitors w) in *. rewrite Hw in B1. simpl in B1.
  assert (Hwin : windows (app w2) <> []).
  { rewrite B1. destruct (listed monitors); [congruence | discriminate]. }
  destruct (windows (app w2)) as [|id ids] eqn:E; [congruence|].
  split; [now rewrite E|]. split; [exact B2|]. split; [exact B6|].
  intros i mon Hi.
  exists (new_MessageWindow env (app_args (app w)) (Some mon)).
  split.
  - rewrite B2, lookup_app_r by lia.
    replace (length (heap w) + i - length (heap w)) with i by lia.
    now rewrite list_lookup_fmap, Hi.
  - pose proof (new_window_anchoring env (app_args (app w)) (Some mon)) as Ha.
    simpl in Ha. rewrite Forall_lookup in Hok. rewrite Hls, (Hok i mon Hi) in Ha.
    destruct Ha as (H1 & H2 & H3).
    destruct (new_window_fields env (app_args (app w)) (Some mon)) as (_ & _ & _ & H4 & _).
    now repeat split.
Qed.

Lemma build_windows_all_anchored_witness :
  windows (app (new_MessageApp (demo_args "hi" "char" "left"))) = [] /\
  windows (app (_build_windows two_monitors
                  (new_MessageApp (demo_args "hi" "char" "left")))) = [0; 1].
Proof.
  split; [reflexivity|].
  destruct (build_windows_all_anchored two_monitors
              (new_MessageApp (demo_args "hi" "char" "left"))
              [ Some {| connector := "DP-1"; geometry := (2560, 1440)%Z |};
                Some {| connector := "DP-2"; geometry := (1920, 1200)%Z |} ])
    as (H & _).
  - reflexivity.
  - reflexivity.
  - reflexivity.
  - reflexivity.
  - repeat constructor.
  - discriminate.
  - exact H.
Defined.

(** X18: when not every monitor is asked for, or layer shell is missing,
    or the display has no monitor to offer, [_build_windows] makes exactly
    one window, tied to no monitor and not anchored; it warns on the error
    stream exactly when every monitor was asked for and layer shell is
    missing. *)
Theorem build_windows_single (env : Platform) (w : World) :
  windows (app w) = [] ->
  all_monitors (app_args (app w)) = false \/ layer_shell env = false \/
  (forall monitors, display env = Some monitors -> listed monitors = []) ->
  let w' := _build_windows env w in
  windows (app w') = [length (heap w)] /\
  heap w' = heap w ++ [new_MessageWindow env (app_args (app w)) None] /\
  layer_shell_enabled (new_MessageWindow env (app_args (app w)) None) = false /\
  stderr w'
  = stderr w ++ (if all_monitors (app_args (app w)) && negb (layer_shell env)
                 then [warn_no_layer_shell] else []) /\
  sources w' = sources w.
Proof.
  intros Hw Hcase w'. subst w'.
  destruct (new_window_unanchored env (app_args (app w))) as (Hu & _).
  unfold _build_windows. rewrite Hw.
  destruct (all_monitors (app_args (app w))) eqn:Ea; simpl.
  - destruct (layer_shell env) eqn:El; simpl.
    + destruct Hcase as [Hc|[Hc|Hc]]; try discriminate.
      destruct (display env) as [monitors|] eqn:Ed.
      * specialize (Hc monitors eq_refl).
        destruct (build_each_succeeds env monitors w El)
          as (B1 & B2 & _ & _ & B5 & B6 & _); [rewrite Hc; constructor|].
        rewrite Hc, Hw in B1. rewrite Hc in B2. simpl in B1, B2.
        rewrite app_nil_r in B2.
        set (w2 := build_each env monitors w) in *.
        destruct (windows (app w2)) eqn:E; [|discriminate]. simpl.
        rewrite ?E, B2, B5, B6, app_nil_r. now repeat split.
      * rewrite ?Hw. simpl. rewrite ?Hw, ?app_nil_r. now repeat split.
    + rewrite ?Hw. simpl. rewrite ?Hw. now repeat split.
  - rewrite ?Hw. simpl. rewrite ?Hw, ?app_nil_r. now repeat split.
Qed.

Lemma build_windows_single_witness :
  windows (app (new_MessageApp (demo_args "hi" "char" "left"))) = [] /\
  stderr (_build_windows narrow_platform (new_MessageApp (demo_args "hi" "char" "left")))
  = [warn_no_layer_shell].
Proof.
  split; [reflexivity|].
  destruct (build_windows_single narrow_platform
              (new_MessageApp (demo_args "hi" "char" "left")))
    as (_ & _ & _ & H & _).
  - reflexivity.
  - right. left. reflexivity.
  - exact H.
Defined.

Lemma destroy_all_frame (ids : list nat) (w : World) :
  let w' := foldl (fun w old_window => destroy_window old_window w) w ids in
  presented w' = presented w /\ quit w' = quit w.
Proof.
  revert w. induction ids as [|id ids IH]; intros w; simpl; [now split|].
  destruct (IH (destroy_window id w)) as [-> ->]. now split.
Qed.

(** What the loop over the monitors leaves alone, whatever the monitors
    answer. *)
Lemma build_each_frame (env : Platform) (monitors : list (option Monitor)) (w : World) :
  let w' := build_each env monitors w in
  app_args (app w') = app_args (app w) /\
  animation_started (app w') = animation_started (app w) /\
  sources w' = sources w /\ presented w' = presented w /\ quit w' = quit w /\
  length (heap w) <= length (heap w').
Proof.
  revert w. induction monitors as [|[mon|] rest IH]; intros w; simpl.
  - now repeat split.
  - destruct (negb _).
    + set (w2 := destroy_window _ _).
      destruct (destroy_all (windows (app w2)) w2) as (D1 & D2 & D3 & _).
      destruct (destroy_all_frame (windows (app w2)) w2) as (D4 & D5).
      simpl in *. rewrite D1, D2, D3, D4, D5. subst w2. simpl.
      rewrite length_alter, length_app. simpl. repeat split; lia.
    + set (w2 := set_windows _ _).
      destruct (IH w2) as (I1 & I2 & I3 & I4 & I5 & I6).
      rewrite I1, I2, I3, I4, I5. subst w2. simpl in *.
      rewrite length_app in I6. simpl in I6. repeat split; lia.
  - apply IH.
Qed.

(** The windows that [_build_windows] puts in the list: each is a window
    as its constructor left it, made by this call. *)
Lemma build_windows_objects (env : Platform) (w : World) :
  windows (app w) = [] ->
  let w' := _build_windows env w in
  windows (app w') <> [] /\
  NoDup (windows (app w')) /\
  app_args (app w') = app_args (app w) /\
  animation_started (app w') = animation_started (app w) /\
  sources w' = sources w /\ presented w' = presented w /\ quit w' = quit w /\
  forall id, id ∈ windows (app w') ->
    length (heap w) <= id /\
    exists monitor,
      heap w' !! id = Some (new_MessageWindow env (app_args (app w)) monitor).
Proof.
  intros Hw w'. subst w'. unfold _build_windows. rewrite Hw.
  set (a := app_args (app w)).
  set (w1 := if all_monitors a && negb (layer_shell env)
             then print_stderr warn_no_layer_shell w else w).
  assert (F1 : app w1 = app w /\ heap w1 = heap w /\ sources w1 = sources w /\
               presented w1 = presented w /\ quit w1 = quit w).
  { subst w1. destruct (all_monitors a && negb (layer_shell env)); now repeat split. }
  destruct F1 as (A1 & H1 & S1 & P1 & Q1).
  set (w2 := if all_monitors a && layer_shell env
             then match display env with
                  | Some monitors => build_each env monitors w1
                  | None => w1
                  end
             else w1).
  assert (F2 : app_args (app w2) = a /\
               animation_started (app w2) = animation_started (app w) /\
               sources w2 = sources w /\ presented w2 = presented w /\
               quit w2 = quit w /\ length (heap w) <= length (heap w2) /\
               NoDup (windows (app w2)) /\
               forall id, id ∈ windows (app w2) ->
                 length (heap w) <= id /\
                 exists monitor, heap w2 !! id = Some (new_MessageWindow env a monitor)).
  { assert (Hsame : app_args (app w1) = a /\
               animation_started (app w1) = animation_started (app w) /\
               sources w1 = sources w /\ presented w1 = presented w /\
               quit w1 = quit w /\ length (heap w) <= length (heap w1) /\
               NoDup (windows (app w1)) /\
               forall id, id ∈ windows (app w1) ->
                 length (heap w) <= id /\
                 exists monitor, heap w1 !! id = Some (new_MessageWindow env a monitor)).
    { rewrite A1, H1, S1, P1, Q1, Hw. repeat split; try reflexivity; try constructor.
      - inversion H.
      - inversion H. }
    subst w2. destruct (all_monitors a && layer_shell env) eqn:Ec; [|exact Hsame].
    destruct (display env) as [monitors|]; [|exact Hsame].
    apply andb_true_iff in Ec as [_ Hls].
    destruct (build_each_frame env monitors w1) as (B1 & B2 & B3 & B4 & B5 & B6).
    rewrite A1 in B1, B2. rewrite H1 in B6.
    rewrite B1, B2, B3, B4, B5, S1, P1, Q1.
    split; [reflexivity|]. split; [reflexivity|]. split; [reflexivity|].
    split; [reflexivity|]. split; [reflexivity|]. split; [exact B6|].
    destruct (decide (Forall (fun mon => is_layer_window env mon = true) (listed monitors)))
      as [Hok|Hbad].
    - destruct (build_each_succeeds env monitors w1 Hls Hok) as (C1 & C2 & _).
      rewrite A1, Hw, H1 in C1. rewrite A1, H1 in C2. simpl in C1. fold a in C2.
      rewrite C1. split; [apply NoDup_seq|].
      intros id Hid. apply elem_of_seq in Hid as [Hlo Hhi]. split; [exact Hlo|].
      destruct (lookup_lt_is_Some_2 (listed monitors) (id - length (heap w)))
        as [mon Hmon]; [lia|].
      exists (Some mon). rewrite C2, lookup_app_r by lia.
      now rewrite list_lookup_fmap, Hmon.
    - apply not_Forall_Exists in Hbad; [|intros mon; apply _].
      apply Exists_exists in Hbad as (mon & Hin & Hno).
      apply list_elem_of_omap in Hin as (o & Hin & Ho). simpl in Ho. subst o.
      destruct (build_each_fails env monitors w1 (length (heap w1)) Hls) as (D1 & _).
      + exists mon. split; [now apply list_elem_of_In|].
        destruct (is_layer_window env mon) eqn:Eb; [exfalso; apply Hno; exact Eb | reflexivity].
      + lia.
      + now rewrite A1, Hw, Nat.sub_diag.
      + rewrite D1. split; [constructor|]. intros id Hid. inversion Hid. }
  clearbody w2. clear w1 A1 H1 S1 P1 Q1.
  destruct F2 as (A2 & N2 & S2 & P2 & Q2 & L2 & D2 & O2).
  destruct (windows (app w2)) as [|id0 ids] eqn:E.
  - simpl. rewrite E, A2, N2, S2, P2, Q2. simpl.
    repeat split; try reflexivity; try discriminate.
    + apply NoDup_singleton.
    + apply list_elem_of_singleton in H. lia.
    + apply list_elem_of_singleton in H. subst id.
      exists None. now apply list_lookup_middle.
  - rewrite E, A2, N2, S2, P2, Q2. repeat split; try reflexivity; try discriminate.
    + exact D2.
    + now apply O2.
    + now apply O2.
Qed.

(** X19: whatever the platform answers, [_build_windows] on an
    application without windows ends with a list that is not empty and
    names each window once; every window named was made by this call with
    the arguments of the application, is idle and is not destroyed.
    Sources, presented windows and the quit request are as before. *)
Theorem build_windows_live (env : Platform) (w : World) :
  windows (app w) = [] ->
  let w' := _build_windows env w in
  windows (app w') <> [] /\
  NoDup (windows (app w')) /\
  sources w' = sources w /\ presented w' = presented w /\ quit w' = quit w /\
  forall id, id ∈ windows (app w') ->
    length (heap w) <= id /\
    exists self,
      heap w' !! id = Some self /\
      args self = app_args (app w) /\
      tokens self = tokenize (message (app_args (app w))) (mode (app_args (app w))) /\
      idle self /\ destroyed self = false.
Proof.
  intros Hw w'.
  destruct (build_windows_objects env w Hw) as (H1 & H2 & _ & _ & H5 & H6 & H7 & H8).
  fold w' in H1, H2, H5, H6, H7, H8.
  repeat split; try assumption.
  - now apply H8.
  - destruct (H8 id H) as (_ & monitor & Hm).
    destruct (new_window_fields env (app_args (app w)) monitor) as (F1 & F2 & F3 & F4 & _).
    eexists. split; [exact Hm|].
    split; [exact F1|]. split; [exact F2|]. split; [exact F3 | exact F4].
Qed.

Lemma build_windows_live_witness :
  windows (app (new_MessageApp (demo_args "hi" "char" "left"))) = [] /\
  NoDup (windows (app (_build_windows demo_platform
                         (new_MessageApp (demo_args "hi" "char" "left"))))).
Proof.
  split; [reflexivity|].
  now apply (build_windows_live demo_platform
               (new_MessageApp (demo_args "hi" "char" "left"))).
Defined.

Lemma set_heap_same (w : World) : set_heap (heap w) w = w.
Proof. now destruct w. Qed.

(** [start_animation] on windows that have tokens: one reveal timer each,
    and the windows are as before. *)
Lemma start_all_tick (env : Platform) (a : Args) (ids : list nat) (w : World) :
  (forall id, id ∈ ids ->
     exists self, heap w !! id = Some self /\ tokens self <> [] /\ args self = a) ->
  foldl (fun w window => snd (call window (start_animation env) w)) w ids
  = set_sources
      (sources w ++
       map (fun id => {| owner := id; period := interval_ms (speed a);
                         callback := cb_tick |}) ids) w.
Proof.
  revert w. induction ids as [|id ids IH]; intros w H; simpl.
  - rewrite app_nil_r. now destruct w.
  - destruct (H id) as (self & Hs & Ht & Ha); [now left|].
    unfold call at 2. rewrite Hs, start_animation_run.
    destruct (tokens self) as [|t ts] eqn:E; [congruence|]. simpl.
    rewrite list_insert_id, set_heap_same, Ha by exact Hs.
    rewrite IH.
    + simpl. now rewrite <- app_assoc.
    + intros id' Hid. simpl. apply H. now right.
Qed.

(** X20: the first activation of an application whose message has
    tokens presents every window once and adds one reveal timer for each
    window, with the period of the speed asked for; the windows themselves
    are as [_build_windows] left them and the flag is set. *)
Theorem first_activation (env : Platform) (w : World) :
  windows (app w) = [] ->
  animation_started (app w) = false ->
  tokenize (message (app_args (app w))) (mode (app_args (app w))) <> [] ->
  let w' := do_activate env w in
  windows (app w') = windows (app (_build_windows env w)) /\
  heap w' = heap (_build_windows env w) /\
  animation_started (app w') = true /\
  presented w' = presented w ++ windows (app w') /\
  sources w'
  = sources w ++
    map (fun id => {| owner := id;
                      period := interval_ms (speed (app_args (app w)));
                      callback := cb_tick |}) (windows (app w')) /\
  quit w' = quit w.
Proof.
  intros Hw Hs Ht w'. subst w'. unfold do_activate.
  destruct (build_windows_objects env w Hw) as (_ & _ & _ & H4 & H5 & H6 & H7 & H8).
  set (w1 := _build_windows env w) in *.
  rewrite present_all. simpl. rewrite H4, Hs.
  rewrite (start_all_tick env (app_args (app w))).
  - simpl. rewrite H5, H6, H7. now repeat split.
  - intros id Hid. simpl. destruct (H8 id Hid) as (_ & monitor & Hm).
    destruct (new_window_fields env (app_args (app w)) monitor) as (F1 & F2 & _).
    eexists. split; [exact Hm|]. split; [now rewrite F2 | exact F1].
Qed.

Lemma first_activation_witness :
  windows (app (new_MessageApp (demo_args "hi" "char" "left"))) = [] /\
  sources (do_activate two_monitors (new_MessageApp (demo_args "hi" "char" "left")))
  = [ {| owner := 0; period := 66; callback := cb_tick |};
      {| owner := 1; period := 66; callback := cb_tick |} ].
Proof.
  split; [reflexivity|].
  destruct (first_activation two_monitors
              (new_MessageApp (demo_args "hi" "char" "left")))
    as (_ & _ & _ & _ & H & _).
  - reflexivity.
  - reflexivity.
  - discriminate.
  - exact H.
Defined.
